(** * Forcepoint XML parser / FortiGate pusher (V2, app.py)

    A shallow embedding of the name sanitizer, the reference resolver, the
    object extractor, the tree flattener and the push loop of [app.py],
    together with the properties the specification states about them.

    Python [str] values are [string]s whose characters are code points in
    the range 0..255; the character classes used by [str.strip] and by the
    regular expression class [\w] are the ones Python has on that range. *)

From Stdlib Require Import String Ascii List ZArith Lia Bool.
From stdpp Require Import gmap strings pretty sorting.
Import ListNotations.
Local Open Scope string_scope.

(** ** Python string primitives *)

Module PyStr.

Definition code (c : ascii) : nat := nat_of_ascii c.

Definition between (lo hi n : nat) : bool := (lo <=? n)%nat && (n <=? hi)%nat.

(** [str.isspace] on code points 0..255. *)
Definition is_space (c : ascii) : bool :=
  let n := code c in
  between 9 13 n || between 28 32 n || (n =? 133)%nat || (n =? 160)%nat.

(** The regular expression class [\w] (str patterns) on code points 0..255:
    alphanumeric characters and the underscore. *)
Definition is_alnum (c : ascii) : bool :=
  let n := code c in
  between 48 57 n || between 65 90 n || between 97 122 n
  || (n =? 170)%nat || between 178 179 n || (n =? 181)%nat
  || between 185 186 n || between 188 190 n
  || between 192 214 n || between 216 246 n || between 248 255 n.

Definition is_underscore (c : ascii) : bool := Ascii.eqb c "_".
Definition is_hyphen (c : ascii) : bool := Ascii.eqb c "-".
Definition is_period (c : ascii) : bool := Ascii.eqb c ".".

Definition is_word (c : ascii) : bool := is_alnum c || is_underscore c.

Definition is_empty (s : string) : bool :=
  match s with EmptyString => true | String _ _ => false end.

(** [s.lstrip(chars)]: drop the longest prefix of characters in the class. *)
Fixpoint lstrip (p : ascii -> bool) (s : string) : string :=
  match s with
  | EmptyString => EmptyString
  | String c s' => if p c then lstrip p s' else s
  end.

(** [s.rstrip(chars)]: drop the longest suffix of characters in the class. *)
Fixpoint rstrip (p : ascii -> bool) (s : string) : string :=
  match s with
  | EmptyString => EmptyString
  | String c s' =>
      let r := rstrip p s' in
      if is_empty r && p c then EmptyString else String c r
  end.

Definition strip_chars (p : ascii -> bool) (s : string) : string :=
  rstrip p (lstrip p s).

(** [s.strip()] *)
Definition strip (s : string) : string := strip_chars is_space s.

(** [s[:n]] for a non-negative [n]. *)
Fixpoint take (n : nat) (s : string) : string :=
  match n, s with
  | O, _ => EmptyString
  | S _, EmptyString => EmptyString
  | S n', String c s' => String c (take n' s')
  end.

Fixpoint map_chars (f : ascii -> ascii) (s : string) : string :=
  match s with
  | EmptyString => EmptyString
  | String c s' => String (f c) (map_chars f s')
  end.

(** [re.sub(r'_+', '_', s)], as a left-to-right scan: [in_run] tells
    whether the previous character belonged to the run being replaced. *)
Fixpoint sub_runs (in_run : bool) (s : string) : string :=
  match s with
  | EmptyString => EmptyString
  | String c s' =>
      if is_underscore c
      then if in_run then sub_runs true s' else String "_" (sub_runs true s')
      else String c (sub_runs false s')
  end.

Fixpoint all_chars (p : ascii -> bool) (s : string) : bool :=
  match s with
  | EmptyString => true
  | String c s' => p c && all_chars p s'
  end.

Fixpoint last_char (s : string) : option ascii :=
  match s with
  | EmptyString => None
  | String c EmptyString => Some c
  | String _ s' => last_char s'
  end.

Definition starts_with_underscore (s : string) : bool :=
  match s with String c _ => is_underscore c | EmptyString => false end.

(** Does the string contain two adjacent underscores? *)
Fixpoint has_double_underscore (s : string) : bool :=
  match s with
  | EmptyString => false
  | String c s' =>
      (is_underscore c &&
         match s' with String c' _ => is_underscore c' | EmptyString => false end)
      || has_double_underscore s'
  end.

(** [sep.join(parts)] *)
Fixpoint join (sep : string) (parts : list string) : string :=
  match parts with
  | [] => EmptyString
  | [x] => x
  | x :: rest => x ++ sep ++ join sep rest
  end.

(** [sep in s] for a one-character [sep]. *)
Fixpoint contains_char (c : ascii) (s : string) : bool :=
  match s with
  | EmptyString => false
  | String d s' => Ascii.eqb c d || contains_char c s'
  end.

(** [s.split(sep, 1)] for a one-character [sep] that occurs in [s]. *)
Fixpoint split_once (c : ascii) (s : string) : option (string * string) :=
  match s with
  | EmptyString => None
  | String d s' =>
      if Ascii.eqb c d then Some (EmptyString, s')
      else match split_once c s' with
           | Some (a, b) => Some (String d a, b)
           | None => None
           end
  end.

End PyStr.

(** ** Name sanitizer *)

Definition max_len_default : nat := 79.

(** Characters the pattern [[^\w\-\.]] leaves untouched. *)
Definition legal_char (c : ascii) : bool :=
  PyStr.is_word c || PyStr.is_hyphen c || PyStr.is_period c.

(** The value [sanitize_name] returns, before the registry is touched. *)
Definition sanitized (orig : string) (max_len : nat) : string :=
  let s := PyStr.strip orig in
  let s := PyStr.map_chars (fun c => if legal_char c then c else "_"%char) s in
  let s := PyStr.sub_runs false s in
  let s := PyStr.rstrip PyStr.is_period (PyStr.strip_chars PyStr.is_underscore s) in
  let s := if PyStr.is_empty s then "obj" else s in
  PyStr.take max_len s.

(** [sanitize_name(orig, max_len)]: the module-level [_name_map] is threaded
    through as explicit state. *)
Definition sanitize_name (orig : string) (max_len : nat)
    (name_map : gmap string string) : string * gmap string string :=
  let s := sanitized orig max_len in
  (s, if String.eqb s orig then name_map else <[orig := s]> name_map).

(** ** Insertion-ordered dictionaries

    A Python [dict] whose iteration order matters (XML attributes, flattened
    rows, the [defaultdict]s of the flattener) is an association list with
    unique keys, in insertion order. *)

Module Dict.

Definition t (V : Type) : Type := list (string * V).

Fixpoint get {V} (k : string) (d : t V) : option V :=
  match d with
  | [] => None
  | (k', v) :: d' => if String.eqb k k' then Some v else get k d'
  end.

(** [d[k] = v]: an existing key keeps its position, a new one goes last. *)
Fixpoint set {V} (k : string) (v : V) (d : t V) : t V :=
  match d with
  | [] => [(k, v)]
  | (k', v') :: d' =>
      if String.eqb k k' then (k', v) :: d' else (k', v') :: set k v d'
  end.

(** [d.update(other)] *)
Definition update {V} (d other : t V) : t V :=
  fold_left (fun acc kv => set (fst kv) (snd kv) acc) other d.

Definition keys {V} (d : t V) : list string := map fst d.

(** [d[k].append(x)] on a [defaultdict(list)]. *)
Definition append_to {V} (k : string) (x : V) (d : t (list V)) : t (list V) :=
  match get k d with
  | Some l => set k (l ++ [x])%list d
  | None => set k [x] d
  end.

(** [list(dict.fromkeys(ks))]: the distinct keys in first-seen order. *)
Definition fromkeys (ks : list string) : list string :=
  keys (fold_left (fun d k => set k tt d) ks []).

End Dict.

(** ** Element trees ([xml.etree.ElementTree]) *)

Inductive Element : Type :=
  Elem (tag : string) (attrib : Dict.t string) (text : option string)
       (children : list Element).

Definition tag (el : Element) : string :=
  match el with Elem t _ _ _ => t end.
Definition attrib (el : Element) : Dict.t string :=
  match el with Elem _ a _ _ => a end.
Definition text (el : Element) : option string :=
  match el with Elem _ _ x _ => x end.
Definition children (el : Element) : list Element :=
  match el with Elem _ _ _ cs => cs end.

(** [el.attrib.get(k, dflt)] *)
Definition attr_get (el : Element) (k dflt : string) : string :=
  match Dict.get k (attrib el) with Some v => v | None => dflt end.

(** [el.iter()]: the element and all its descendants, in document order. *)
Fixpoint iter_all (el : Element) : list Element :=
  match el with
  | Elem _ _ _ cs => el :: flat_map iter_all cs
  end.

(** [el.iter(t)] *)
Definition iter (el : Element) (t : string) : list Element :=
  List.filter (fun e => String.eqb (tag e) t) (iter_all el).

(** [el.findall(t)]: the direct children with tag [t]. *)
Definition findall (el : Element) (t : string) : list Element :=
  List.filter (fun e => String.eqb (tag e) t) (children el).

(** [el.find(t)]: the first direct child with tag [t]. *)
Definition find (el : Element) (t : string) : option Element :=
  List.find (fun e => String.eqb (tag e) t) (children el).

(** ** Built-in mapping table *)

Definition BUILTIN_MAP : gmap string string :=
  list_to_map
    [ ("HTTP", "HTTP"); ("HTTPS", "HTTPS"); ("FTP", "FTP"); ("SSH", "SSH");
      ("Remote Desktop", "RDP"); ("DNS (TCP)", "DNS");
      ("DNS (TCP with SafeSearch)", "DNS"); ("NTP (TCP)", "NTP");
      ("Kerberos", "Kerberos"); ("Kpasswd", "Kerberos");
      ("LDAP (TCP)", "LDAP"); ("LDAPS (TCP)", "LDAPS");
      ("LDAPS (with decryption)", "LDAPS"); ("Microsoft-DS", "Microsoft-DS");
      ("Microsoft Global Catalog LDAP (TCP)", "LDAP");
      ("Microsoft Global Catalog LDAPS (TCP)", "LDAPS");
      ("SIP (TCP)", "SIP"); ("SIP Control (TCP)", "SIP"); ("SCCP", "SCCP");
      ("HTTP (SafeSearch)", "HTTP"); ("IMAPS", "IMAPS");
      ("DNS (UDP)", "DNS"); ("NTP (UDP)", "NTP"); ("LDAP (UDP)", "LDAP");
      ("LDAPS (UDP)", "LDAPS"); ("NetBIOS Datagram", "NetBIOS");
      ("SIP (UDP)", "SIP"); ("SIP Control (UDP)", "SIP"); ("TFTP", "TFTP");
      ("Ping", "PING") ].

(** ** Object extractor *)

(** Pass 1 state: the set [xml_names] and the module-level [_name_map]. *)
Record Registry : Type := mkRegistry {
  xml_names : gset string;
  name_map : gmap string string
}.

Definition xml_object_tags : list string :=
  [ "host"; "network"; "address_range"; "group";
    "gen_service_group"; "service_tcp"; "service_udp" ].

(** Body of the inner loop of pass 1. *)
Definition register_name (reg : Registry) (el : Element) : Registry :=
  let n := PyStr.strip (attr_get el "name" "") in
  if PyStr.is_empty n then reg
  else
    let '(_, nm) := sanitize_name n max_len_default (name_map reg) in
    mkRegistry ({[ n ]} ∪ xml_names reg) nm.

(** Pass 1: [_name_map] is reset, then every name-bearing tag is scanned. *)
Definition build_registry (root : Element) : Registry :=
  fold_left
    (fun reg t => fold_left register_name (iter root t) reg)
    xml_object_tags
    (mkRegistry ∅ ∅).

(** The nested function [resolve]; [None] is Python's [None]. *)
Definition resolve (reg : Registry) (ref : string) : option string :=
  if decide (ref ∈ xml_names reg) then
    Some (match name_map reg !! ref with Some s => s | None => ref end)
  else
    match BUILTIN_MAP !! ref with
    | Some b => Some b
    | None => None
    end.

(** [_name_map.get(orig, orig)] *)
Definition mapped_name (reg : Registry) (orig : string) : string :=
  match name_map reg !! orig with Some s => s | None => orig end.

(** [[m for m in members if not (m in seen or seen.add(m))]] *)
Fixpoint dedup_from (seen : gset string) (members : list string) : list string :=
  match members with
  | [] => []
  | m :: rest =>
      if decide (m ∈ seen) then dedup_from seen rest
      else m :: dedup_from ({[ m ]} ∪ seen) rest
  end.

Definition dedup (members : list string) : list string := dedup_from ∅ members.

(** Records of the extractor's output lists.  Hosts and networks share a
    shape; the port range of a service is stored under a key that depends
    on the protocol. *)
Record AddressRecord : Type := mkAddress {
  addr_orig_name : string;
  addr_name : string;
  addr_type : string;
  addr_subnet : string;
  addr_comment : string
}.

Record RangeRecord : Type := mkRange {
  range_orig_name : string;
  range_name : string;
  range_type : string;
  range_start_ip : string;
  range_end_ip : string
}.

Record GroupRecord : Type := mkGroup {
  group_orig_name : string;
  group_name : string;
  group_member : list string;
  group_skipped_refs : list string
}.

Record ServiceRecord : Type := mkService {
  svc_orig_name : string;
  svc_name : string;
  svc_protocol : string;
  svc_tcp_portrange : option string;
  svc_udp_portrange : option string;
  svc_comment : string
}.

(** One iteration of [for el in root.iter('host')]; [None] is [continue]. *)
Definition host_record (reg : Registry) (el : Element) : option AddressRecord :=
  let ip :=
    match find el "mvia_address" with
    | Some ip_el => PyStr.strip (attr_get ip_el "address" "")
    | None => ""
    end in
  if PyStr.is_empty ip then None
  else
    let orig := PyStr.strip (attr_get el "name" "") in
    Some (mkAddress orig (mapped_name reg orig) "ipmask"
            (ip ++ " 255.255.255.255")
            (PyStr.take 255 (attr_get el "comment" ""))).

(** One iteration of [for el in root.iter('address_range')]. *)
Definition range_record (reg : Registry) (el : Element) : option RangeRecord :=
  let r := PyStr.strip (attr_get el "ip_range" "") in
  match PyStr.split_once "-" r with
  | None => None
  | Some (a, b) =>
      let orig := PyStr.strip (attr_get el "name" "") in
      Some (mkRange orig (mapped_name reg orig) "iprange"
              (PyStr.strip a) (PyStr.strip b))
  end.

(** The inner loop of a group: the resolved members and the skipped
    references, both in document order. *)
Definition collect_step (reg : Registry) (acc : list string * list string)
    (ne : Element) : list string * list string :=
  let '(members, skipped) := acc in
  let ref := PyStr.strip (attr_get ne "ref" "") in
  if PyStr.is_empty ref then acc
  else
    match resolve reg ref with
    | Some resolved => ((members ++ [resolved])%list, skipped)
    | None => (members, (skipped ++ [ref])%list)
    end.

Definition collect_refs (reg : Registry) (child_tag : string) (el : Element)
    : list string * list string :=
  fold_left (collect_step reg) (findall el child_tag) ([], []).

(** One iteration of [for el in root.iter('group')] (with ["ne_list"]) or of
    [for el in root.iter('gen_service_group')] (with ["service_ref"]). *)
Definition group_record (reg : Registry) (child_tag : string) (el : Element)
    : option GroupRecord :=
  let orig := PyStr.strip (attr_get el "name" "") in
  let '(members, skipped) := collect_refs reg child_tag el in
  let members := dedup members in
  match members with
  | [] => None
  | _ :: _ => Some (mkGroup orig (mapped_name reg orig) members skipped)
  end.

(** One iteration of the [service_tcp] ([tcp = true]) or [service_udp] loop. *)
Definition service_record (reg : Registry) (tcp : bool) (el : Element)
    : option ServiceRecord :=
  let min_p := PyStr.strip (attr_get el "min_dst_port" "") in
  let max_p := PyStr.strip (attr_get el "max_dst_port" min_p) in
  if PyStr.is_empty min_p then None
  else
    let pr :=
      if negb (PyStr.is_empty max_p) && negb (String.eqb max_p min_p)
      then min_p ++ "-" ++ max_p else min_p in
    let orig := PyStr.strip (attr_get el "name" "") in
    Some (mkService orig (mapped_name reg orig)
            (if tcp then "TCP" else "UDP")
            (if tcp then Some pr else None)
            (if tcp then None else Some pr)
            (PyStr.take 255 (attr_get el "comment" ""))).

(** [for el in ...: ... append / continue] *)
Fixpoint collect {A B} (f : A -> option B) (l : list A) : list B :=
  match l with
  | [] => []
  | x :: l' =>
      match f x with
      | Some y => y :: collect f l'
      | None => collect f l'
      end
  end.

Record Extracted : Type := mkExtracted {
  hosts : list AddressRecord;
  networks : list AddressRecord;
  addr_ranges : list RangeRecord;
  net_groups : list GroupRecord;
  services : list ServiceRecord;
  service_groups : list GroupRecord;
  out_name_map : gmap string string
}.

Section Extractor.

(** [ipaddress.IPv4Network(net, strict=False)] of the Python standard
    library: the network address and the netmask as strings, or [None]
    where it raises. *)
Variable ipv4_network : string -> option (string * string).

(** One iteration of [for el in root.iter('network')]. *)
Definition network_record (reg : Registry) (el : Element)
    : option AddressRecord :=
  let net := PyStr.strip (attr_get el "ipv4_network" "") in
  if negb (PyStr.contains_char "/" net) then None
  else
    match ipv4_network net with
    | None => None
    | Some (ip, mask) =>
        let orig := PyStr.strip (attr_get el "name" "") in
        Some (mkAddress orig (mapped_name reg orig) "ipmask"
                (ip ++ " " ++ mask)
                (PyStr.take 255 (attr_get el "comment" "")))
    end.

(** [extract_objects], from the parsed root element on. *)
Definition extract_objects (root : Element) : Extracted :=
  let reg := build_registry root in
  mkExtracted
    (collect (host_record reg) (iter root "host"))
    (collect (network_record reg) (iter root "network"))
    (collect (range_record reg) (iter root "address_range"))
    (collect (group_record reg "ne_list") (iter root "group"))
    (collect (service_record reg true) (iter root "service_tcp")
     ++ collect (service_record reg false) (iter root "service_udp"))%list
    (collect (group_record reg "service_ref") (iter root "gen_service_group"))
    (name_map reg).

End Extractor.

(** ** Tree flattener *)

(** [f"{prefix}{k}" if prefix else k] *)
Definition with_prefix (prefix k : string) : string :=
  if PyStr.is_empty prefix then k else prefix ++ k.

(** [if len(v) > 500: v = v[:200] + "...[truncated]"] *)
Definition truncate_value (v : string) : string :=
  if (500 <? String.length v)%nat then PyStr.take 200 v ++ "...[truncated]" else v.

(** [el.text.strip()] when [el.text and el.text.strip()], else nothing. *)
Definition stripped_text (txt : option string) : option string :=
  match txt with
  | None => None
  | Some t => if PyStr.is_empty (PyStr.strip t) then None else Some (PyStr.strip t)
  end.

(** [child_count[t]] *)
Definition count_tag (t : string) (cs : list Element) : nat :=
  List.length (List.filter (fun c => String.eqb (tag c) t) cs).

(** The [grouped] dictionary: tags occurring more than once, each with its
    instances in document order; keys in first-seen order. *)
Definition grouped_children (cs : list Element) : Dict.t (list Element) :=
  fold_left
    (fun g c => if (1 <? count_tag (tag c) cs)%nat
                then Dict.append_to (tag c) c g else g)
    cs [].

(** [list(dict.fromkeys(k for c in children for k in c.attrib))] *)
Definition child_keys (cs : list Element) : list string :=
  Dict.fromkeys (flat_map (fun c => Dict.keys (attrib c)) cs).

(** [[c.attrib[k] for c in children if k in c.attrib]] *)
Definition attr_values (k : string) (cs : list Element) : list string :=
  collect (fun c => Dict.get k (attrib c)) cs.

(** [[c.text.strip() for c in children if c.text and c.text.strip()]] *)
Definition text_values (cs : list Element) : list string :=
  collect (fun c => stripped_text (text c)) cs.

(** The [ggg] dictionary: the children of the instances, by tag. *)
Definition grandchildren (cs : list Element) : Dict.t (list Element) :=
  fold_left
    (fun g c => fold_left (fun g gc => Dict.append_to (tag gc) gc g) (children c) g)
    cs [].

Definition joined_columns (cp : string) (cs : list Element)
    (row : Dict.t string) : Dict.t string :=
  fold_left
    (fun row k => Dict.set (cp ++ k) (PyStr.join " | " (attr_values k cs)) row)
    (child_keys cs) row.

(** Body of [for tag, children in grouped.items()]. *)
Definition flatten_group (prefix : string) (row : Dict.t string)
    (entry : string * list Element) : Dict.t string :=
  let '(t, cs) := entry in
  let cp := with_prefix prefix (t ++ ".") in
  let row :=
    match child_keys cs with
    | _ :: _ => joined_columns cp cs row
    | [] =>
        match text_values cs with
        | [] => row
        | vals => Dict.set (cp ++ "_text") (PyStr.join " | " vals) row
        end
    end in
  fold_left
    (fun row ge => joined_columns (cp ++ fst ge ++ ".") (snd ge) row)
    (grandchildren cs) row.

(** Body of [for tag, child in single.items()].  The [single] dictionary
    holds the children whose tag occurs once, so iterating over it visits
    exactly those children in document order; [rec] is [flatten_element]. *)
Definition flatten_singles (rec : Element -> string -> Dict.t string)
    (prefix : string) (cs : list Element)
    : list Element -> Dict.t string -> Dict.t string :=
  fix singles (rest : list Element) (row : Dict.t string) : Dict.t string :=
    match rest with
    | [] => row
    | c :: rest' =>
        if (1 <? count_tag (tag c) cs)%nat then singles rest' row
        else singles rest'
               (Dict.update row (rec c (with_prefix prefix (tag c ++ "."))))
    end.

(** [flatten_element(el, prefix)] *)
Fixpoint flatten_element (el : Element) (prefix : string) : Dict.t string :=
  match el with
  | Elem _ attrs txt cs =>
      let row :=
        fold_left
          (fun row kv =>
             Dict.set (with_prefix prefix (fst kv)) (truncate_value (snd kv)) row)
          attrs [] in
      let row :=
        match stripped_text txt with
        | Some t => Dict.set (with_prefix prefix "_text") t row
        | None => row
        end in
      let row := fold_left (flatten_group prefix) (grouped_children cs) row in
      flatten_singles flatten_element prefix cs cs row
  end.

(** ** FortiGate client and push loop *)

(** JSON values of a request payload: a string, or a list of
    [{'name': m}] objects. *)
Inductive jval : Type :=
| JStr (s : string)
| JNames (l : list string).

Definition Payload : Type := Dict.t jval.

(** The requests the client sends: the status probe of [test], and the
    listing, the create and the update of an endpoint under [cmdb]. *)
Inductive Request : Type :=
| STATUS
| GET (ep : string)
| POST (ep : string) (payload : Payload)
| PUT (ep name : string) (payload : Payload).

(** What [requests] hands back: the status code, the body text, and the
    names in the body's [results] list (or the message of the exception
    decoding them raises). *)
Record Response : Type := mkResponse {
  status_code : Z;
  resp_text : string;
  resp_names : list string + string
}.

(** [FGClient]: the remote end answers a request, given the requests sent
    so far, with a response or with a transport exception ([inr]). *)
Record FGClient : Type := mkClient {
  send : list Request -> Request -> Response + string
}.

(** Computations that talk to the remote end: the log of requests sent is
    the state, [inr msg] is a raised exception with [str(e) = msg]. *)
Definition Remote (A : Type) : Type :=
  list Request -> (A + string) * list Request.

Definition ret {A} (a : A) : Remote A := fun log => (inl a, log).

Definition raise {A} (msg : string) : Remote A := fun log => (inr msg, log).

Definition bind {A B} (m : Remote A) (k : A -> Remote B) : Remote B :=
  fun log =>
    match m log with
    | (inl a, log') => k a log'
    | (inr e, log') => (inr e, log')
    end.

(** [try: m except Exception as e: h(e)] *)
Definition try_catch {A} (m : Remote A) (h : string -> Remote A) : Remote A :=
  fun log =>
    match m log with
    | (inl a, log') => (inl a, log')
    | (inr e, log') => h e log'
    end.

Notation "x <- m ;; k" := (bind m (fun x => k))
  (at level 100, m at next level, right associativity).

Definition http (fg : FGClient) (rq : Request) : Remote Response :=
  fun log => (send fg log rq, (log ++ [rq])%list).

Definition get_existing (fg : FGClient) (ep : string) : Remote (gset string) :=
  r <- http fg (GET ep) ;;
  if (status_code r =? 200)%Z then
    match resp_names r with
    | inl names => ret (list_to_set names)
    | inr e => raise e
    end
  else ret ∅.

Definition post (fg : FGClient) (ep : string) (payload : Payload)
    : Remote (Z * string) :=
  r <- http fg (POST ep payload) ;;
  ret (status_code r, PyStr.take 400 (resp_text r)).

Definition put (fg : FGClient) (ep name : string) (payload : Payload)
    : Remote (Z * string) :=
  r <- http fg (PUT ep name payload) ;;
  ret (status_code r, PyStr.take 400 (resp_text r)).

Definition upsert (fg : FGClient) (ep name : string) (payload : Payload)
    (existing : gset string) : Remote (Z * string) :=
  if decide (name ∈ existing) then put fg ep name payload
  else post fg ep payload.

Definition EP : Dict.t string :=
  [ ("hosts", "firewall/address");
    ("networks", "firewall/address");
    ("addr_ranges", "firewall/address");
    ("net_groups", "firewall/addrgrp");
    ("services", "firewall.service/custom");
    ("service_groups", "firewall.service/group") ].

(** An object of the request's [items] list shaped like the records the
    extractor emits, any field of which may be missing: the values
    present are strings, and lists of strings for [member] and
    [skipped_refs]. *)
Record Item : Type := mkItem {
  item_name : option string;
  item_orig_name : option string;
  item_comment : option string;
  item_type : option string;
  item_subnet : option string;
  item_start_ip : option string;
  item_end_ip : option string;
  item_member : option (list string);
  item_skipped_refs : option (list string);
  item_protocol : option string;
  item_tcp_portrange : option string;
  item_udp_portrange : option string
}.

(** An entry of the request's [items] list as the handler receives it,
    unvalidated: an object as above, an object whose [name] is present
    and no string, or a value that is no object; the last two carry the
    name Python gives the type of the offending value ([NoneType], [int],
    [list], ...). *)
Inductive RawItem : Type :=
| ItemObject (item : Item)
| ItemBadName (type_name : string)
| ItemNotObject (type_name : string).

(** [str(e)] of the [AttributeError] that [value.attr] raises. *)
Definition no_attribute (type_name attr : string) : string :=
  "'" ++ type_name ++ "' object has no attribute '" ++ attr ++ "'".

(** An entry of [results]. *)
Record PushResult : Type := mkResult {
  res_status : string;
  res_name : string;
  res_orig : string;
  res_msg : option string;
  res_code : option Z
}.

(** [d.get(k, dflt)] *)
Definition get_or {A} (o : option A) (dflt : A) : A :=
  match o with Some a => a | None => dflt end.

(** [d[k]], raising [KeyError(k)] *)
Definition get_item {A} (key : string) (o : option A) : Remote A :=
  match o with Some a => ret a | None => raise ("'" ++ key ++ "'") end.

Definition skipped_result (name ref : string) : PushResult :=
  mkResult "skip" ref ref
    (Some ("Not in XML (Forcepoint built-in) — skipped from group " ++ name))
    None.

Definition opt_eqb (o : option string) (s : string) : bool :=
  match o with Some x => String.eqb x s | None => false end.

Definition in_strings (s : string) (l : list string) : bool :=
  existsb (String.eqb s) l.

(** The [if obj_type in ... elif ... else] chain of the inner [try]: the
    skip entries to append and the payload; [None] is the final [else]
    (unknown type). *)
Definition build_payload (obj_type name : string) (item : Item)
    : Remote (option (list PushResult * Payload)) :=
  if in_strings obj_type ["hosts"; "networks"; "addr_ranges"] then
    let payload :=
      [ ("name", JStr name);
        ("comment", JStr (PyStr.take 255 (get_or (item_comment item) ""))) ] in
    if opt_eqb (item_type item) "ipmask" then
      subnet <- get_item "subnet" (item_subnet item) ;;
      ret (Some ([], payload ++ [("type", JStr "ipmask"); ("subnet", JStr subnet)])%list)
    else if opt_eqb (item_type item) "iprange" then
      start <- get_item "start-ip" (item_start_ip item) ;;
      stop <- get_item "end-ip" (item_end_ip item) ;;
      ret (Some ([], payload ++ [("type", JStr "iprange");
                                 ("start-ip", JStr start);
                                 ("end-ip", JStr stop)])%list)
    else ret (Some ([], payload))
  else if String.eqb obj_type "net_groups" then
    ret (Some (map (skipped_result name) (get_or (item_skipped_refs item) []),
               [ ("name", JStr name);
                 ("member", JNames (get_or (item_member item) [])) ]))
  else if String.eqb obj_type "services" then
    protocol <- get_item "protocol" (item_protocol item) ;;
    let payload :=
      [ ("name", JStr name); ("protocol", JStr protocol);
        ("comment", JStr (PyStr.take 255 (get_or (item_comment item) ""))) ] in
    if String.eqb protocol "TCP" then
      ret (Some ([], payload ++
                     [("tcp-portrange", JStr (get_or (item_tcp_portrange item) ""))])%list)
    else
      ret (Some ([], payload ++
                     [("udp-portrange", JStr (get_or (item_udp_portrange item) ""))])%list)
  else if String.eqb obj_type "service_groups" then
    ret (Some (map (skipped_result name) (get_or (item_skipped_refs item) []),
               [ ("name", JStr name);
                 ("member", JNames (get_or (item_member item) [])) ]))
  else ret None.

(** [code in (200, 201, 204)] *)
Definition is_success (code : Z) : bool :=
  ((code =? 200) || (code =? 201) || (code =? 204))%Z.

(** [f'HTTP {code}: {txt[:150]}'] *)
Definition http_error (code : Z) (txt : string) : string :=
  "HTTP " ++ pretty code ++ ": " ++ PyStr.take 150 txt.

(** The loop state: the [results] list and the [existing] set. *)
Definition PushState : Type := list PushResult * gset string.

(** Body of [for item in items], for an item whose name is read without
    an exception. *)
Definition push_object (fg : FGClient) (ep obj_type : string)
    (st : PushState) (item : Item) : Remote PushState :=
  let '(results, existing) := st in
  let name := PyStr.strip (get_or (item_name item) "") in
  let orig := get_or (item_orig_name item) name in
  if PyStr.is_empty name then
    ret ((results ++ [mkResult "skip" "" "" (Some "Empty name") None])%list, existing)
  else
    try_catch
      (built <- build_payload obj_type name item ;;
       match built with
       | None =>
           ret ((results ++ [mkResult "skip" name orig (Some "Unknown type") None])%list,
                existing)
       | Some (skips, payload) =>
           let results := (results ++ skips)%list in
           try_catch
             (r <- upsert fg ep name payload existing ;;
              let '(code, txt) := r in
              if is_success code then
                ret ((results ++ [mkResult "ok" name orig None (Some code)])%list,
                     {[ name ]} ∪ existing)
              else
                ret ((results ++
                      [mkResult "err" name orig
                         (Some (http_error code txt))
                         None])%list,
                     existing))
             (fun e =>
                ret ((results ++
                      [mkResult "err" name orig (Some (PyStr.take 150 e)) None])%list,
                     existing))
       end)
      (fun e =>
         ret ((results ++ [mkResult "err" name orig (Some (PyStr.take 150 e)) None])%list,
              existing)).

(** Body of [for item in items]: [item.get('name','').strip()] stands
    before the inner [try], so what it raises leaves the loop. *)
Definition push_item (fg : FGClient) (ep obj_type : string)
    (st : PushState) (raw : RawItem) : Remote PushState :=
  match raw with
  | ItemNotObject type_name => raise (no_attribute type_name "get")
  | ItemBadName type_name => raise (no_attribute type_name "strip")
  | ItemObject item => push_object fg ep obj_type st item
  end.

Fixpoint push_items (fg : FGClient) (ep obj_type : string)
    (st : PushState) (items : list RawItem) : Remote PushState :=
  match items with
  | [] => ret st
  | item :: rest =>
      st' <- push_item fg ep obj_type st item ;;
      push_items fg ep obj_type st' rest
  end.

Inductive PushResponse : Type :=
| ErrorResponse (msg : string) (http_status : Z)
| ResultsResponse (results : list PushResult).

(** The [/fg_push] handler; [fg] is the module-level [_fg], [obj_type] and
    [items] are the entries of the request body, [items] being a list. *)
Definition fg_push (fg : option FGClient) (obj_type : string)
    (items : list RawItem) : list Request -> PushResponse * list Request :=
  fun log =>
    match fg with
    | None => (ErrorResponse "Not connected to FortiGate" 400, log)
    | Some fg =>
        match Dict.get obj_type EP with
        | None => (ErrorResponse ("Unknown obj_type: " ++ obj_type) 400, log)
        | Some ep =>
            if PyStr.is_empty ep
            then (ErrorResponse ("Unknown obj_type: " ++ obj_type) 400, log)
            else
              match (existing <- get_existing fg ep ;;
                     push_items fg ep obj_type ([], existing) items) log with
              | (inl (results, _), log') => (ResultsResponse results, log')
              | (inr e, log') => (ErrorResponse e 500, log')
              end
        end
    end.

(** ** Vocabulary of the statements *)

(** The registry agrees with the sanitizer: a registered name is mapped to
    its sanitized form, an unregistered one has no entry. *)
Definition registry_ok (reg : Registry) : Prop :=
  forall n,
    (n ∈ xml_names reg -> mapped_name reg n = sanitized n max_len_default)
    /\ (n ∉ xml_names reg -> name_map reg !! n = None).

(** The name an element declares: its trimmed [name] attribute. *)
Definition declared_name (el : Element) : string :=
  PyStr.strip (attr_get el "name" "").

(** The member references of a group element, as the loops read them:
    trimmed [ref] attributes of the children with the given tag, blank
    ones left out. *)
Definition group_refs (child_tag : string) (el : Element) : list string :=
  List.filter (fun r => negb (PyStr.is_empty r))
    (map (fun ne => PyStr.strip (attr_get ne "ref" "")) (findall el child_tag)).

Definition unresolved (reg : Registry) (ref : string) : bool :=
  match resolve reg ref with Some _ => false | None => true end.

(** The naming constraints of the data model: non-empty, at most the fixed
    maximum length, made of the restricted character set. *)
Definition valid_name (s : string) : Prop :=
  s <> "" /\ (String.length s <= max_len_default)%nat
  /\ PyStr.all_chars legal_char s = true.

(** The ([orig_name], [name]) pairs of every record of an extraction. *)
Definition record_names (out : Extracted) : list (string * string) :=
  (map (fun r => (addr_orig_name r, addr_name r)) (hosts out)
   ++ map (fun r => (addr_orig_name r, addr_name r)) (networks out)
   ++ map (fun r => (range_orig_name r, range_name r)) (addr_ranges out)
   ++ map (fun r => (group_orig_name r, group_name r)) (net_groups out)
   ++ map (fun r => (svc_orig_name r, svc_name r)) (services out)
   ++ map (fun r => (group_orig_name r, group_name r)) (service_groups out))%list.

(** The port range of a service record, under whichever key holds it. *)
Definition svc_portrange (r : ServiceRecord) : option string :=
  if String.eqb (svc_protocol r) "TCP" then svc_tcp_portrange r
  else svc_udp_portrange r.

(** Scenario 3: a local host, and a group with a local, a built-in and an
    undefined reference. *)
Definition scenario3_group : Element :=
  Elem "group" [("name", "Web Group")] None
    [ Elem "ne_list" [("ref", "WebSrv")] None [];
      Elem "ne_list" [("ref", "DNS (TCP)")] None [];
      Elem "ne_list" [("ref", "GhostObj")] None [] ].

Definition scenario3_doc : Element :=
  Elem "generic_import_export" [("build", "1")] None
    [ Elem "host" [("name", "WebSrv")] None
        [ Elem "mvia_address" [("address", "10.0.0.1")] None [] ];
      scenario3_group ].

(** A host element that carries an address but no name. *)
Definition unnamed_host_doc : Element :=
  Elem "generic_import_export" [] None
    [ Elem "host" [] None
        [ Elem "mvia_address" [("address", "10.0.0.2")] None [] ] ].

(** A code point below 128. *)
Definition is_ascii (c : ascii) : bool := (PyStr.code c <? 128)%nat.

(** The characters of the naming grammar: [a-z A-Z 0-9 - _ .] *)
Definition grammar_char (c : ascii) : bool :=
  let n := PyStr.code c in
  PyStr.between 48 57 n || PyStr.between 65 90 n || PyStr.between 97 122 n
  || PyStr.is_hyphen c || PyStr.is_underscore c || PyStr.is_period c.

(** The two names of a record follow from the element it is made from:
    the original name is the name the element declares; when that is not
    empty, the name is its sanitized form, which is non-empty, within the
    maximum length and, for a declared name of code points below 128,
    made of the characters of the naming grammar; when it is empty, the
    name is empty. *)
Definition named_after (el : Element) (orig name : string) : Prop :=
  orig = declared_name el
  /\ (declared_name el <> "" ->
      name = sanitized (declared_name el) max_len_default
      /\ name <> ""
      /\ (String.length name <= max_len_default)%nat
      /\ (PyStr.all_chars is_ascii (declared_name el) = true ->
          PyStr.all_chars grammar_char name = true))
  /\ (declared_name el = "" -> name = "").

(** A host whose name is the one letter with code point 233. *)
Definition latin_host_doc : Element :=
  Elem "generic_import_export" [] None
    [ Elem "host" [("name", String (ascii_of_nat 233) "")] None
        [ Elem "mvia_address" [("address", "10.0.0.3")] None [] ] ].

(** The canonical name of an item as the push loop reads it. *)
Definition item_key (item : Item) : string :=
  PyStr.strip (get_or (item_name item) "").

Definition is_some {A} (o : option A) : bool :=
  match o with Some _ => true | None => false end.

(** The item carries the fields its category's payload indexes: the subnet
    of an [ipmask] address, both ends of an [iprange] address, the
    protocol of a service. *)
Definition has_required_fields (obj_type : string) (item : Item) : bool :=
  if in_strings obj_type ["hosts"; "networks"; "addr_ranges"] then
    if opt_eqb (item_type item) "ipmask" then is_some (item_subnet item)
    else if opt_eqb (item_type item) "iprange"
         then is_some (item_start_ip item) && is_some (item_end_ip item)
         else true
  else if String.eqb obj_type "services" then is_some (item_protocol item)
  else true.

(** The request is a create or an update on the endpoint. *)
Definition upsert_on (ep : string) (rq : Request) : Prop :=
  match rq with
  | POST ep' _ => ep' = ep
  | PUT ep' _ _ => ep' = ep
  | _ => False
  end.

(** A remote end that accepts every request and lists no object. *)
Definition accepting_client : FGClient :=
  mkClient (fun _ rq =>
              match rq with
              | STATUS => inl (mkResponse 200 "" (inl []))
              | GET _ => inl (mkResponse 200 "" (inl []))
              | POST _ _ => inl (mkResponse 200 "" (inl []))
              | PUT _ _ _ => inl (mkResponse 200 "" (inl []))
              end).

Definition host_item (name subnet : string) : Item :=
  mkItem (Some name) (Some name) (Some "") (Some "ipmask") (Some subnet)
    None None None None None None None.

(** The one request [upsert] sends for a name. *)
Definition upsert_request (ep name : string) (payload : Payload)
    (existing : gset string) : Request :=
  if decide (name ∈ existing) then PUT ep name payload else POST ep payload.


(** The name a create or an update is for: the last segment of the path of
    a [PUT], the [name] entry of the payload of a [POST]. *)
Definition request_name (rq : Request) : option string :=
  match rq with
  | PUT _ name _ => Some name
  | POST _ payload =>
      match Dict.get "name" payload with
      | Some (JStr n) => Some n
      | _ => None
      end
  | _ => None
  end.

(** The status codes of a success: 200, 201 and 204. *)
Definition success_code (code : Z) : bool :=
  (code =? 200)%Z || (code =? 201)%Z || (code =? 204)%Z.

(** The remote end answers the request, sent after [history], with the
    status code of a success. *)
Definition accepted_by (fg : FGClient) (history : list Request) (rq : Request)
    : bool :=
  match send fg history rq with
  | inl r => success_code (status_code r)
  | inr _ => false
  end.




(** A tag or attribute name without a period. *)
Definition no_period (s : string) : bool := negb (PyStr.contains_char "." s).

(** The column [col] lies under the dotted path [p]. *)
Definition under (p col : string) : Prop := exists x, col = p ++ x.

(** Going from row [d] to row [d'] only touches columns under [p]. *)
Definition writes_under (p : string) (d d' : Dict.t string) : Prop :=
  (forall col, ~ under p col -> Dict.get col d' = Dict.get col d)
  /\ (forall col, In col (Dict.keys d') -> In col (Dict.keys d) \/ under p col).








(** Does the last character of the string belong to the class? *)
Definition ends_with (p : ascii -> bool) (s : string) : bool :=
  match PyStr.last_char s with Some c => p c | None => false end.

(** The naming grammar in full: the constraints of [valid_name], no
    adjacent underscores, no underscore at either end, no period at the
    end. *)
Definition canonical_name (s : string) : Prop :=
  valid_name s
  /\ PyStr.has_double_underscore s = false
  /\ PyStr.starts_with_underscore s = false
  /\ ends_with PyStr.is_underscore s = false
  /\ ends_with PyStr.is_period s = false.


(** ** Document tabulator *)

(** A cell of a sheet: a string, or the integer of a count. *)
Inductive Cell : Type :=
| CStr (s : string)
| CInt (n : nat).

(** A value of the [sheets] dictionary; the two meta-sheets carry no
    [is_direct] and no [count]. *)
Record Sheet : Type := mkSheet {
  sheet_columns : list string;
  sheet_rows : list (list Cell);
  sheet_is_direct : option bool;
  sheet_count : option nat
}.

(** An entry of [summary]. *)
Record SummaryEntry : Type := mkSummary {
  sum_tag : string;
  sum_is_direct : bool;
  sum_count : nat
}.

(** [d = defaultdict(list); for el in els: d[el.tag].append(el)] *)
Definition by_tag (els : list Element) : Dict.t (list Element) :=
  fold_left (fun d el => Dict.append_to (tag el) el d) els [].

(** The elements [root.iter()] yields after [root] itself, which the loop
    skips with [if el is root: continue]; no descendant is the root. *)
Definition descendants (root : Element) : list Element :=
  flat_map iter_all (children root).

(** [k in d] *)
Definition has_key {V} (k : string) (d : Dict.t V) : bool :=
  match Dict.get k d with Some _ => true | None => false end.

(** [d[k]] for a key of a [defaultdict(list)] *)
Definition entries_of {V} (k : string) (d : Dict.t (list V)) : list V :=
  match Dict.get k d with Some l => l | None => [] end.

(** [sorted(d)]: the keys in increasing order of their code points. *)
Definition sorted_keys {V} (d : Dict.t V) : list string :=
  merge_sort String.le (Dict.keys d).

(** [for col in row: if col not in seen: seen.add(col); all_cols.append(col)] *)
Definition add_columns (acc : list string * gset string) (row : Dict.t string)
    : list string * gset string :=
  fold_left
    (fun acc col =>
       let '(cols, seen) := acc in
       if decide (col ∈ seen) then acc
       else ((cols ++ [col])%list, {[ col ]} ∪ seen))
    (Dict.keys row) acc.

(** The sheet of one tag. *)
Definition tag_sheet (direct : Dict.t (list Element)) (t : string)
    (els : list Element) : Sheet :=
  let all_rows := map (fun el => flatten_element el "") els in
  let all_cols := fst (fold_left add_columns all_rows ([], ∅)) in
  mkSheet all_cols
    (map (fun row =>
            map (fun col => CStr (match Dict.get col row with
                                  | Some v => v
                                  | None => ""
                                  end)) all_cols)
       all_rows)
    (Some (has_key t direct))
    (Some (List.length els)).

Definition summary_of (direct all_els : Dict.t (list Element)) : list SummaryEntry :=
  map (fun t => mkSummary t (has_key t direct) (List.length (entries_of t all_els)))
    (sorted_keys all_els).

(** [parse_xml], from the parsed root element on. *)
Definition parse_xml (root : Element)
    : Dict.t string * list SummaryEntry * Dict.t Sheet :=
  let root_info := Dict.update [("tag", tag root)] (attrib root) in
  let direct := by_tag (children root) in
  let all_els := by_tag (descendants root) in
  let summary := summary_of direct all_els in
  let sheets :=
    Dict.set "00_ROOT"
      (mkSheet ["Property"; "Value"]
         ([CStr "tag"; CStr (tag root)]
          :: map (fun kv => [CStr (fst kv); CStr (snd kv)]) (attrib root))
         None None)
      [] in
  let sheets :=
    Dict.set "01_SUMMARY"
      (mkSheet ["Element Tag"; "Is Direct Child"; "Count"]
         (map (fun s => [CStr (sum_tag s);
                         CStr (if sum_is_direct s then "Yes" else "No");
                         CInt (sum_count s)])
            summary)
         None None)
      sheets in
  let sheets :=
    fold_left
      (fun sheets t => Dict.set t (tag_sheet direct t (entries_of t all_els)) sheets)
      (sorted_keys all_els) sheets in
  (root_info, summary, sheets).

(** The descendants of the root that carry the tag [t], in document order. *)
Definition tagged (root : Element) (t : string) : list Element :=
  List.filter (fun el => String.eqb (tag el) t) (descendants root).

Definition rectangular (sh : Sheet) : Prop :=
  Forall (fun r => List.length r = List.length (sheet_columns sh)) (sheet_rows sh).


(** ** Connection handlers *)

(** The [results] value of the status document: a JSON object with its
    [Version] and [version] entries, or a value without [.get], on which
    the handler raises an exception with the given text. *)
Inductive StatusResults : Type :=
| ResultsDict (upper lower : option string)
| ResultsOther (err : string).

(** The decoded body of a 200 status reply: a JSON object with its
    [results] entry, or some other JSON value. *)
Inductive StatusBody : Type :=
| BodyDict (results : option StatusResults)
| BodyOther.

(** What [FGClient(...)] followed by [client.test()] comes to: an exception
    building the client (a missing key, a port that is no integer) with
    its text, before anything is sent; an exception of the status request
    (a transport failure) with its text; or a reply to the status request
    with its status code, its text and its decoded body (or the text of
    the exception decoding raises). *)
Inductive Probe : Type :=
| ProbeRaises (msg : string)
| ProbeFails (msg : string)
| ProbeReply (client : FGClient) (code : Z) (text : string)
             (json : StatusBody + string).

(** The requests [client.test()] sends in the course of a probe. *)
Definition probe_requests (probe : Probe) : list Request :=
  match probe with
  | ProbeRaises _ => []
  | ProbeFails _ => [STATUS]
  | ProbeReply _ _ _ _ => [STATUS]
  end.

Inductive ConnectResponse : Type :=
| ConnectOk (version : string)
| ConnectError (msg : string) (http_status : Z).

(** [a or b] on strings *)
Definition str_or (a b : string) : string := if PyStr.is_empty a then b else a.

(** The [/fg_connect] handler: the module-level [_fg] before, and after
    with the response. *)
Definition fg_connect (fg : option FGClient) (probe : Probe)
    : option FGClient * ConnectResponse :=
  match probe with
  | ProbeRaises e => (fg, ConnectError e 400)
  | ProbeFails e => (fg, ConnectError e 400)
  | ProbeReply client code text json =>
      if negb (code =? 200)%Z then
        (fg, ConnectError
               ("HTTP " ++ pretty code ++ ": "
                ++ PyStr.take 200 (PyStr.take 300 text)) 400)
      else
        match json with
        | inr e => (fg, ConnectError e 400)
        | inl body =>
            match body with
            | BodyOther => (Some client, ConnectOk "")
            | BodyDict None => (Some client, ConnectOk "")
            | BodyDict (Some (ResultsDict upper lower)) =>
                (Some client,
                 ConnectOk (str_or (get_or upper "") (get_or lower "")))
            | BodyDict (Some (ResultsOther e)) =>
                (Some client, ConnectError e 400)
            end
        end
  end.

(** The [/fg_disconnect] handler. *)
Definition fg_disconnect (fg : option FGClient) : option FGClient := None.

(** The requests that act on the connection, and the server state they
    act on: [_fg] and the requests sent to the remote end so far. *)
Inductive Op : Type :=
| OpConnect (probe : Probe)
| OpDisconnect
| OpPush (obj_type : string) (items : list RawItem).

Definition AppState : Type := option FGClient * list Request.

Definition app_step (st : AppState) (op : Op) : AppState :=
  let '(fg, log) := st in
  match op with
  | OpConnect probe =>
      (fst (fg_connect fg probe), (log ++ probe_requests probe)%list)
  | OpDisconnect => (fg_disconnect fg, log)
  | OpPush obj_type items => (fg, snd (fg_push fg obj_type items log))
  end.

Definition app_run (ops : list Op) (st : AppState) : AppState :=
  fold_left app_step ops st.

(** The probe gets status 200 and a body that decodes. *)
Definition accepted (probe : Probe) : bool :=
  match probe with
  | ProbeReply _ code _ (inl _) => (code =? 200)%Z
  | _ => false
  end.

Definition is_accepted_connect (op : Op) : bool :=
  match op with OpConnect probe => accepted probe | _ => false end.

(** The status probes a list of operations sends. *)
Definition probes_of (ops : list Op) : list Request :=
  flat_map (fun op => match op with
                      | OpConnect probe => probe_requests probe
                      | _ => []
                      end) ops.

(** * Properties *)

(** ** Strings *)

Section StringFacts.

Import PyStr.

Lemma is_empty_true (s : string) : is_empty s = true -> s = "".
Proof. destruct s; simpl; [reflexivity | discriminate]. Qed.

Lemma is_empty_false (s : string) : is_empty s = false <-> s <> "".
Proof. destruct s; simpl; split; congruence. Qed.

Lemma length_take (n : nat) (s : string) : (String.length (take n s) <= n)%nat.
Proof.
  revert s; induction n as [|n IH]; intros [|c s]; simpl; try lia.
  specialize (IH s); lia.
Qed.

Lemma take_nonempty (n : nat) (s : string) :
  is_empty s = false -> is_empty (take (S n) s) = false.
Proof. destruct s; simpl; [discriminate | reflexivity]. Qed.

Variable p : ascii -> bool.

Lemma all_chars_take (n : nat) (s : string) :
  all_chars p s = true -> all_chars p (take n s) = true.
Proof.
  revert s; induction n as [|n IH]; intros [|c s]; simpl; auto.
  intros [Hc Hs]%andb_prop. rewrite Hc; simpl; auto.
Qed.

Lemma all_chars_lstrip (q : ascii -> bool) (s : string) :
  all_chars p s = true -> all_chars p (lstrip q s) = true.
Proof.
  induction s as [|c s IH]; simpl; auto.
  intros H. destruct (q c); [| exact H].
  apply andb_prop in H as [_ H]; auto.
Qed.

Lemma all_chars_rstrip (q : ascii -> bool) (s : string) :
  all_chars p s = true -> all_chars p (rstrip q s) = true.
Proof.
  induction s as [|c s IH]; simpl; auto.
  intros [Hc Hs]%andb_prop.
  destruct (is_empty (rstrip q s) && q c); simpl; auto.
  rewrite Hc; simpl; auto.
Qed.

Lemma all_chars_sub_runs (b : bool) (s : string) :
  p "_"%char = true -> all_chars p s = true -> all_chars p (sub_runs b s) = true.
Proof.
  intros Hu. revert b; induction s as [|c s IH]; intros b; simpl; auto.
  intros [Hc Hs]%andb_prop.
  destruct (is_underscore c), b; simpl; rewrite ?Hu, ?Hc; simpl; auto.
Qed.

Lemma all_chars_map (f : ascii -> ascii) (s : string) :
  (forall c, p (f c) = true) -> all_chars p (map_chars f s) = true.
Proof.
  intros Hf; induction s as [|c s IH]; simpl; auto.
  rewrite Hf; simpl; auto.
Qed.

(** Stripping a stripped string changes nothing. *)
Lemma rstrip_rstrip (s : string) : rstrip p (rstrip p s) = rstrip p s.
Proof.
  induction s as [|c s IH]; simpl; auto.
  destruct (is_empty (rstrip p s) && p c) eqn:E; simpl; auto.
  rewrite IH, E. reflexivity.
Qed.

Lemma lstrip_head (s : string) :
  lstrip p s = "" \/ exists c r, lstrip p s = String c r /\ p c = false.
Proof.
  induction s as [|c s IH]; simpl; auto.
  destruct (p c) eqn:E; auto. right; eauto.
Qed.

Lemma strip_chars_idem (s : string) :
  strip_chars p (strip_chars p s) = strip_chars p s.
Proof.
  unfold strip_chars.
  destruct (lstrip_head s) as [-> | (c & r & -> & Hc)]; simpl; auto.
  rewrite Hc, andb_false_r. simpl. rewrite Hc. simpl.
  rewrite rstrip_rstrip, Hc, andb_false_r. reflexivity.
Qed.

End StringFacts.

Lemma strip_idem (s : string) : PyStr.strip (PyStr.strip s) = PyStr.strip s.
Proof. apply strip_chars_idem. Qed.

(** ** Sanitizer: the part of the naming grammar that always holds *)

Lemma legal_underscore : legal_char "_" = true.
Proof. reflexivity. Qed.

Lemma sanitized_length (orig : string) (n : nat) :
  (String.length (sanitized orig n) <= n)%nat.
Proof. apply length_take. Qed.

Lemma sanitized_nonempty (orig : string) (n : nat) :
  sanitized orig (S n) <> "".
Proof.
  unfold sanitized. apply is_empty_false, take_nonempty.
  match goal with |- context [if PyStr.is_empty ?s then _ else _] =>
    destruct (PyStr.is_empty s) eqn:E end; [reflexivity | exact E].
Qed.

Lemma sanitized_charset (orig : string) (n : nat) :
  PyStr.all_chars legal_char (sanitized orig n) = true.
Proof.
  unfold sanitized. apply all_chars_take.
  match goal with |- context [if PyStr.is_empty ?s then _ else _] =>
    destruct (PyStr.is_empty s) end; [reflexivity |].
  apply all_chars_rstrip. unfold PyStr.strip_chars.
  apply all_chars_rstrip, all_chars_lstrip.
  apply all_chars_sub_runs; [apply legal_underscore |].
  apply all_chars_map. intros c.
  destruct (legal_char c) eqn:E; [exact E | apply legal_underscore].
Qed.

Lemma sanitize_name_fst (orig : string) (n : nat) (nm : gmap string string) :
  fst (sanitize_name orig n nm) = sanitized orig n.
Proof. reflexivity. Qed.

Section Underscores.

Import PyStr.

Lemma sub_runs_true_head (s : string) :
  starts_with_underscore (sub_runs true s) = false.
Proof.
  induction s as [|c s IH]; simpl; auto.
  destruct (is_underscore c) eqn:E; simpl; auto.
Qed.

Lemma sub_runs_no_double (b : bool) (s : string) :
  has_double_underscore (sub_runs b s) = false.
Proof.
  revert b; induction s as [|c s IH]; intros b; simpl; auto.
  destruct (is_underscore c) eqn:E.
  - destruct b; [apply IH |].
    simpl. rewrite IH, orb_false_r.
    pose proof (sub_runs_true_head s) as H.
    destruct (sub_runs true s); simpl in *; auto.
  - simpl. rewrite E, IH. reflexivity.
Qed.

Lemma no_double_tail (c : ascii) (s : string) :
  has_double_underscore (String c s) = false -> has_double_underscore s = false.
Proof. simpl. intros H. apply orb_false_elim in H as [_ H]. exact H. Qed.

Lemma no_double_lstrip (q : ascii -> bool) (s : string) :
  has_double_underscore s = false -> has_double_underscore (lstrip q s) = false.
Proof.
  induction s as [|c s IH]; auto.
  intros H. simpl lstrip. destruct (q c); auto.
  apply IH, (no_double_tail c), H.
Qed.

Lemma no_double_rstrip (q : ascii -> bool) (s : string) :
  has_double_underscore s = false -> has_double_underscore (rstrip q s) = false.
Proof.
  induction s as [|c s IH]; auto.
  intros H. pose proof (IH (no_double_tail _ _ H)) as IH'.
  simpl rstrip. destruct (is_empty (rstrip q s) && q c); auto.
  simpl. rewrite IH', orb_false_r.
  simpl in H. apply orb_false_elim in H as [H _].
  destruct (is_underscore c); auto. simpl in *.
  destruct s as [|c' s]; simpl in *; auto.
  destruct (is_empty (rstrip q s) && q c'); auto.
Qed.

Lemma no_double_take (n : nat) (s : string) :
  has_double_underscore s = false -> has_double_underscore (take n s) = false.
Proof.
  revert s; induction n as [|n IH]; intros [|c s]; auto.
  intros H. pose proof (IH s (no_double_tail _ _ H)) as IH'.
  simpl. rewrite IH', orb_false_r.
  simpl in H. apply orb_false_elim in H as [H _].
  destruct (is_underscore c); auto. simpl in *.
  destruct s as [|c' s], n; simpl in *; auto.
Qed.

Lemma lstrip_no_head (s : string) :
  starts_with_underscore (lstrip is_underscore s) = false.
Proof.
  induction s as [|c s IH]; simpl; auto.
  destruct (is_underscore c) eqn:E; simpl; auto.
Qed.

Lemma rstrip_head (q : ascii -> bool) (s : string) :
  starts_with_underscore s = false -> starts_with_underscore (rstrip q s) = false.
Proof.
  destruct s as [|c s]; simpl; auto.
  destruct (is_empty (rstrip q s) && q c); simpl; auto.
Qed.

Lemma take_head (n : nat) (s : string) :
  starts_with_underscore s = false -> starts_with_underscore (take n s) = false.
Proof. destruct n, s; simpl; auto. Qed.

(** What [sanitize_name] guarantees of the naming grammar on every input:
    a non-empty result of at most [max_len] characters, drawn from the
    legal character set, without adjacent underscores and without a
    leading underscore. *)
Lemma sanitized_grammar_core (orig : string) :
  let s := sanitized orig max_len_default in
  s <> "" /\ (String.length s <= 79)%nat /\ all_chars legal_char s = true
  /\ has_double_underscore s = false /\ starts_with_underscore s = false.
Proof.
  cbv zeta. split; [apply sanitized_nonempty |].
  split; [apply sanitized_length |].
  split; [apply sanitized_charset |].
  unfold sanitized.
  match goal with |- context [if is_empty ?s then _ else _] =>
    assert (has_double_underscore s = false /\ starts_with_underscore s = false)
      as [Hd Hh]; [| destruct (is_empty s)] end.
  - unfold strip_chars. split.
    + apply no_double_rstrip, no_double_rstrip, no_double_lstrip, sub_runs_no_double.
    + apply rstrip_head, rstrip_head, lstrip_no_head.
  - split; reflexivity.
  - split; [apply no_double_take, Hd | apply take_head, Hh].
Qed.

End Underscores.

(** C1 (fails on the code): [rstrip('.')] runs after [strip('_')], and the
    cut to [max_len] runs after both, so the result can end with an
    underscore or with a period.  The four evaluations: an underscore
    bared by stripping the period, an underscore bared by the cut, a
    period bared by the cut, and the value returned for ["a ."]. *)
Theorem sanitize_name_trailing_chars :
  let long := string_of_list_ascii (repeat "a"%char 78) in
  PyStr.last_char (fst (sanitize_name "a ." max_len_default ∅)) = Some "_"%char
  /\ PyStr.last_char (fst (sanitize_name (long ++ "_b") max_len_default ∅))
     = Some "_"%char
  /\ PyStr.last_char (fst (sanitize_name (long ++ ".b") max_len_default ∅))
     = Some "."%char
  /\ fst (sanitize_name "a ." max_len_default ∅) = "a_".
Proof. vm_compute. repeat split. Qed.

(** C2 (fails on the code): sanitizing ["a ."] gives ["a_"], and sanitizing
    that again gives ["a"]. *)
Theorem sanitize_name_twice :
  let '(s1, nm1) := sanitize_name "a ." max_len_default ∅ in
  let '(s2, _) := sanitize_name s1 max_len_default nm1 in
  s1 = "a_" /\ s2 = "a" /\ s2 <> s1.
Proof. vm_compute. repeat split. discriminate. Qed.

(** ** De-duplication of group members *)

Lemma elem_of_dedup_from (seen : gset string) (l : list string) (x : string) :
  x ∈ dedup_from seen l <-> x ∈ l /\ x ∉ seen.
Proof.
  revert seen; induction l as [|m l IH]; intros seen; simpl.
  - set_solver.
  - destruct (decide (m ∈ seen)) as [Hin | Hout].
    + rewrite IH. set_solver.
    + rewrite elem_of_cons, IH. split.
      * intros [-> | [Hx Hs]]; set_solver.
      * intros [Hx Hs]. destruct (decide (x = m)) as [-> | Hne]; [now left |].
        right. set_solver.
Qed.

Lemma NoDup_dedup_from (seen : gset string) (l : list string) :
  NoDup (dedup_from seen l).
Proof.
  revert seen; induction l as [|m l IH]; intros seen; simpl.
  - constructor.
  - destruct (decide (m ∈ seen)); [apply IH |].
    constructor; [| apply IH].
    rewrite elem_of_dedup_from. set_solver.
Qed.

Lemma dedup_from_app (seen : gset string) (l1 l2 : list string) :
  dedup_from seen (l1 ++ l2)%list
  = (dedup_from seen l1 ++ dedup_from (list_to_set l1 ∪ seen) l2)%list.
Proof.
  revert seen; induction l1 as [|m l1 IH]; intros seen; simpl.
  - f_equal. set_solver.
  - destruct (decide (m ∈ seen)) as [Hin | Hout].
    + rewrite IH. do 2 f_equal. set_solver.
    + simpl. rewrite IH. do 3 f_equal. set_solver.
Qed.

Lemma dedup_from_nil_iff (seen : gset string) (l : list string) :
  dedup_from seen l = [] <-> forall x, x ∈ l -> x ∈ seen.
Proof.
  split.
  - intros H x Hx. destruct (decide (x ∈ seen)) as [|Hn]; [assumption |].
    assert (x ∈ dedup_from seen l) as Hd by (apply elem_of_dedup_from; auto).
    rewrite H in Hd. inversion Hd.
  - intros H. destruct (dedup_from seen l) as [|y r] eqn:E; [reflexivity |].
    assert (y ∈ dedup_from seen l) as Hy by (rewrite E; left).
    apply elem_of_dedup_from in Hy as [Hy Hs]. destruct (Hs (H _ Hy)).
Qed.

(** C7: the de-duplicated member list has no repetition, has the members of
    the input, and keeps every member at the place of its first occurrence:
    what precedes it is the de-duplication of what preceded its first
    occurrence.  [A, B, A, C, B] becomes [A, B, C]. *)
Theorem dedup_first_occurrence :
  (forall l : list string,
      NoDup (dedup l)
      /\ (forall x, x ∈ dedup l <-> x ∈ l)
      /\ (forall l1 x l2, l = (l1 ++ x :: l2)%list -> x ∉ l1 ->
            exists rest, dedup l = (dedup l1 ++ x :: rest)%list))
  /\ dedup ["A"; "B"; "A"; "C"; "B"] = ["A"; "B"; "C"].
Proof.
  split; [| vm_compute; reflexivity].
  intros l. unfold dedup. split; [apply NoDup_dedup_from |].
  split.
  - intros x. rewrite elem_of_dedup_from. set_solver.
  - intros l1 x l2 -> Hx. rewrite dedup_from_app. simpl.
    destruct (decide (x ∈ list_to_set l1 ∪ ∅)) as [Hin | Hout].
    + exfalso. apply Hx. set_solver.
    + eauto.
Qed.

Lemma dedup_first_occurrence_witness :
  exists rest, dedup ["A"; "B"; "A"; "C"; "B"] = (dedup ["A"; "B"; "A"] ++ "C" :: rest)%list.
Proof.
  destruct dedup_first_occurrence as [H _].
  destruct (H ["A"; "B"; "A"; "C"; "B"]) as (_ & _ & Hpos).
  apply (Hpos ["A"; "B"; "A"] "C" ["B"]); [reflexivity |].
  intros Hin. repeat (apply elem_of_cons in Hin as [Hin | Hin]; [discriminate |]).
  inversion Hin.
Defined.

(** ** Name registry *)

Lemma registry_ok_empty : registry_ok (mkRegistry ∅ ∅).
Proof. intros n. split; [set_solver | intros _; apply lookup_empty]. Qed.

Lemma register_name_ok (reg : Registry) (el : Element) :
  registry_ok reg -> registry_ok (register_name reg el).
Proof.
  intros Hok. unfold register_name.
  set (n := PyStr.strip (attr_get el "name" "")).
  destruct (PyStr.is_empty n); [exact Hok |].
  unfold sanitize_name. intros m. unfold mapped_name. simpl.
  destruct (Hok m) as [Hin Hout]. destruct (Hok n) as [Hin_n Hout_n].
  unfold mapped_name in *.
  destruct (String.eqb_spec (sanitized n max_len_default) n) as [Heq | Hne].
  - split.
    + intros Hm. destruct (decide (m = n)) as [-> | Hmn].
      * destruct (decide (n ∈ xml_names reg)); [auto |].
        rewrite Hout_n; auto.
      * apply Hin. set_solver.
    + intros Hm. apply Hout. set_solver.
  - split.
    + intros Hm. destruct (decide (m = n)) as [-> | Hmn].
      * rewrite lookup_insert_eq. reflexivity.
      * rewrite lookup_insert_ne by congruence. apply Hin. set_solver.
    + intros Hm. rewrite lookup_insert_ne; [apply Hout |]; set_solver.
Qed.

Lemma xml_names_register (reg : Registry) (el : Element) (n : string) :
  n ∈ xml_names (register_name reg el)
  <-> n ∈ xml_names reg \/ (declared_name el = n /\ n <> "").
Proof.
  unfold register_name, declared_name.
  set (d := PyStr.strip (attr_get el "name" "")).
  destruct (PyStr.is_empty d) eqn:E.
  - apply is_empty_true in E. split; [auto |]. intros [H | [H1 H2]]; congruence.
  - apply is_empty_false in E. unfold sanitize_name. simpl.
    rewrite elem_of_union, elem_of_singleton. split.
    + intros [-> | H]; auto.
    + intros [H | [H _]]; auto.
Qed.

Lemma registry_fold (l : list Element) (reg : Registry) :
  registry_ok reg ->
  registry_ok (fold_left register_name l reg)
  /\ forall n, n ∈ xml_names (fold_left register_name l reg)
               <-> n ∈ xml_names reg
                   \/ exists el, In el l /\ declared_name el = n /\ n <> "".
Proof.
  revert reg; induction l as [|el l IH]; intros reg Hok; simpl.
  - split; [exact Hok |]. intros n. split; [auto |].
    intros [H | (el & [] & _)]; exact H.
  - destruct (IH _ (register_name_ok reg el Hok)) as [Hok' Hn].
    split; [exact Hok' |]. intros n. rewrite Hn, xml_names_register. split.
    + intros [[H | H] | (e & He & H)]; eauto 6.
    + intros [H | (e & [<- | He] & H)]; eauto 6.
Qed.

Lemma registry_tags (root : Element) (tags : list string) (reg : Registry) :
  let scan := fun reg t => fold_left register_name (iter root t) reg in
  registry_ok reg ->
  registry_ok (fold_left scan tags reg)
  /\ forall n, n ∈ xml_names (fold_left scan tags reg)
               <-> n ∈ xml_names reg
                   \/ exists t el, In t tags /\ In el (iter root t)
                                   /\ declared_name el = n /\ n <> "".
Proof.
  cbv zeta. revert reg; induction tags as [|t tags IH]; intros reg Hok; simpl.
  - split; [exact Hok |]. intros n. split; [auto |].
    intros [H | (t & el & [] & _)]; exact H.
  - destruct (registry_fold (iter root t) reg Hok) as [Hok1 Hn1].
    destruct (IH _ Hok1) as [Hok2 Hn2].
    split; [exact Hok2 |]. intros n. rewrite Hn2, Hn1. split.
    + intros [[H | (e & He & H)] | (t' & e & Ht & He & H)]; eauto 8.
    + intros [H | (t' & e & [<- | Ht] & He & H)]; eauto 8.
Qed.

Lemma build_registry_ok (root : Element) : registry_ok (build_registry root).
Proof. apply (registry_tags root xml_object_tags), registry_ok_empty. Qed.

Lemma build_registry_names (root : Element) (n : string) :
  n ∈ xml_names (build_registry root)
  <-> exists t el, In t xml_object_tags /\ In el (iter root t)
                   /\ declared_name el = n /\ n <> "".
Proof.
  destruct (registry_tags root xml_object_tags _ registry_ok_empty) as [_ H].
  unfold build_registry. rewrite H. split; [| auto].
  intros [Hin | Hex]; [| exact Hex]. simpl in Hin. set_solver.
Qed.

(** The two lists a group's inner loop builds, in terms of its references. *)
Lemma collect_step_fold (reg : Registry) (l : list Element)
    (members skipped : list string) :
  let refs :=
    List.filter (fun r => negb (PyStr.is_empty r))
      (map (fun ne => PyStr.strip (attr_get ne "ref" "")) l) in
  fold_left (collect_step reg) l (members, skipped)
  = ((members ++ omap (resolve reg) refs)%list,
     (skipped ++ List.filter (unresolved reg) refs)%list).
Proof.
  cbv zeta. revert members skipped; induction l as [|ne l IH]; intros members skipped.
  - simpl. rewrite !app_nil_r. reflexivity.
  - cbn [fold_left map List.filter]. unfold collect_step at 2.
    set (r := PyStr.strip (attr_get ne "ref" "")).
    assert (unresolved reg r
            = match resolve reg r with Some _ => false | None => true end) as Hu
      by reflexivity.
    destruct (PyStr.is_empty r) eqn:E; cbn [negb]; [apply IH |].
    cbn [omap list_omap List.filter]. rewrite Hu.
    destruct (resolve reg r) eqn:R; rewrite IH, <- app_assoc; reflexivity.
Qed.

Lemma collect_refs_spec (reg : Registry) (child_tag : string) (el : Element) :
  collect_refs reg child_tag el
  = (omap (resolve reg) (group_refs child_tag el),
     List.filter (unresolved reg) (group_refs child_tag el)).
Proof. unfold collect_refs. rewrite collect_step_fold. reflexivity. Qed.

(** ** Reference resolver *)

Lemma resolve_local (reg : Registry) (ref : string) :
  registry_ok reg -> ref ∈ xml_names reg ->
  resolve reg ref = Some (sanitized ref max_len_default).
Proof.
  intros Hok Hin. unfold resolve. destruct (decide (ref ∈ xml_names reg)); [| tauto].
  f_equal. apply (Hok ref), Hin.
Qed.

Lemma resolve_foreign (reg : Registry) (ref : string) :
  ref ∉ xml_names reg -> resolve reg ref = BUILTIN_MAP !! ref.
Proof.
  intros Hout. unfold resolve. destruct (decide (ref ∈ xml_names reg)); [tauto |].
  destruct (BUILTIN_MAP !! ref); reflexivity.
Qed.

(** C3: resolution against the registry of the pre-population pass: a
    reference is local exactly when some element with a name-bearing tag
    declares it; a local reference resolves to its sanitized form; any
    other reference resolves through the built-in table, or not at all.
    With references [WebSrv] (local), [DNS (TCP)] (built-in) and [GhostObj]
    (neither), a group gets members [WebSrv, DNS] and skipped_refs
    [GhostObj]. *)
Theorem resolve_decision_order (root : Element) (ref : string) :
  let reg := build_registry root in
  (ref ∈ xml_names reg
   <-> exists t el, In t xml_object_tags /\ In el (iter root t)
                    /\ declared_name el = ref /\ ref <> "")
  /\ (ref ∈ xml_names reg ->
      resolve reg ref = Some (sanitized ref max_len_default))
  /\ (ref ∉ xml_names reg ->
      forall b, BUILTIN_MAP !! ref = Some b -> resolve reg ref = Some b)
  /\ (ref ∉ xml_names reg -> BUILTIN_MAP !! ref = None -> resolve reg ref = None)
  /\ (forall g,
         group_refs "ne_list" g = ["WebSrv"; "DNS (TCP)"; "GhostObj"] ->
         "WebSrv" ∈ xml_names reg ->
         "DNS (TCP)" ∉ xml_names reg ->
         "GhostObj" ∉ xml_names reg ->
         exists r, group_record reg "ne_list" g = Some r
                   /\ group_member r = ["WebSrv"; "DNS"]
                   /\ group_skipped_refs r = ["GhostObj"]).
Proof.
  cbv zeta. pose proof (build_registry_ok root) as Hok.
  split; [apply build_registry_names |].
  split; [apply resolve_local, Hok |].
  split; [intros Hout b Hb; rewrite resolve_foreign, Hb; auto |].
  split; [intros Hout Hb; rewrite resolve_foreign, Hb; auto |].
  intros g Hrefs Hweb Hdns Hghost.
  unfold group_record. rewrite collect_refs_spec, Hrefs.
  cbn [omap list_omap List.filter]. unfold unresolved.
  rewrite (resolve_local _ _ Hok Hweb), !resolve_foreign by assumption.
  assert (BUILTIN_MAP !! "DNS (TCP)" = Some "DNS") as -> by (vm_compute; reflexivity).
  assert (BUILTIN_MAP !! "GhostObj" = None) as -> by (vm_compute; reflexivity).
  assert (sanitized "WebSrv" max_len_default = "WebSrv") as -> by (vm_compute; reflexivity).
  assert (dedup ["WebSrv"; "DNS"] = ["WebSrv"; "DNS"]) as -> by (vm_compute; reflexivity).
  eexists. split; [reflexivity |]. split; reflexivity.
Qed.

Lemma resolve_decision_order_witness :
  resolve (build_registry scenario3_doc) "WebSrv" = Some "WebSrv"
  /\ resolve (build_registry scenario3_doc) "DNS (TCP)" = Some "DNS"
  /\ resolve (build_registry scenario3_doc) "GhostObj" = None
  /\ exists r, group_record (build_registry scenario3_doc) "ne_list" scenario3_group
               = Some r
               /\ group_member r = ["WebSrv"; "DNS"]
               /\ group_skipped_refs r = ["GhostObj"].
Proof.
  assert ("WebSrv" ∈ xml_names (build_registry scenario3_doc)) as Hweb
    by (vm_compute; reflexivity).
  assert ("DNS (TCP)" ∉ xml_names (build_registry scenario3_doc)) as Hdns
    by (vm_compute; discriminate).
  assert ("GhostObj" ∉ xml_names (build_registry scenario3_doc)) as Hghost
    by (vm_compute; discriminate).
  split.
  { destruct (resolve_decision_order scenario3_doc "WebSrv") as (_ & H & _).
    apply H, Hweb. }
  split.
  { destruct (resolve_decision_order scenario3_doc "DNS (TCP)") as (_ & _ & H & _).
    apply H; [exact Hdns | vm_compute; reflexivity]. }
  split.
  { destruct (resolve_decision_order scenario3_doc "GhostObj") as (_ & _ & _ & H & _).
    apply H; [exact Hghost | vm_compute; reflexivity]. }
  destruct (resolve_decision_order scenario3_doc "") as (_ & _ & _ & _ & H).
  apply H; [vm_compute; reflexivity | exact Hweb | exact Hdns | exact Hghost].
Defined.

(** ** Object extractor *)

Lemma collect_In {A B} (f : A -> option B) (l : list A) (y : B) :
  In y (collect f l) <-> exists x, In x l /\ f x = Some y.
Proof.
  induction l as [|a l IH]; simpl.
  - split; [intros [] | intros (x & [] & _)].
  - destruct (f a) eqn:E; simpl; rewrite IH; split.
    + intros [<- | (x & Hx & Hf)]; eauto.
    + intros (x & [<- | Hx] & Hf); [left; congruence | eauto].
    + intros (x & Hx & Hf); eauto.
    + intros (x & [<- | Hx] & Hf); [congruence | eauto].
Qed.

Lemma dedup_nil_iff (l : list string) : dedup l = [] <-> l = [].
Proof.
  unfold dedup. rewrite dedup_from_nil_iff. split.
  - destruct l as [|x l]; [reflexivity |]. intros H.
    specialize (H x). set_solver.
  - intros ->. intros x Hx. inversion Hx.
Qed.

Lemma group_record_cases (reg : Registry) (child_tag : string) (el : Element) :
  let refs := group_refs child_tag el in
  let members := omap (resolve reg) refs in
  (members = [] /\ group_record reg child_tag el = None)
  \/ (members <> []
      /\ group_record reg child_tag el
         = Some (mkGroup (declared_name el)
                   (mapped_name reg (declared_name el))
                   (dedup members)
                   (List.filter (unresolved reg) refs))).
Proof.
  cbv zeta. unfold group_record. rewrite collect_refs_spec. cbv beta iota zeta.
  destruct (dedup (omap (resolve reg) (group_refs child_tag el))) as [|m ms] eqn:E.
  - left. split; [apply dedup_nil_iff, E | reflexivity].
  - right. split; [| reflexivity].
    intros Hnil. rewrite Hnil in E. discriminate.
Qed.

(** C5: a group element yields a record exactly when one of its references
    resolves; the record lists the resolved names, de-duplicated, as
    members and the references that did not resolve, as read and in
    document order, as skipped_refs.  The address groups and the service
    groups of an extraction are the records so obtained from the [group]
    and [gen_service_group] elements, with [ne_list] and [service_ref]
    children respectively. *)
Theorem group_record_emitted
    (ipv4_network : string -> option (string * string)) (root : Element) :
  let reg := build_registry root in
  let out := extract_objects ipv4_network root in
  (forall g, In g (net_groups out)
             <-> exists el, In el (iter root "group")
                            /\ group_record reg "ne_list" el = Some g)
  /\ (forall g, In g (service_groups out)
                <-> exists el, In el (iter root "gen_service_group")
                               /\ group_record reg "service_ref" el = Some g)
  /\ forall child_tag el,
      let refs := group_refs child_tag el in
      (is_Some (group_record reg child_tag el)
       <-> exists r, In r refs /\ is_Some (resolve reg r))
      /\ (forall g, group_record reg child_tag el = Some g ->
            group_member g = dedup (omap (resolve reg) refs)
            /\ group_skipped_refs g = List.filter (unresolved reg) refs).
Proof.
  cbv zeta. split; [intros g; apply collect_In |].
  split; [intros g; apply collect_In |].
  intros child_tag el.
  destruct (group_record_cases (build_registry root) child_tag el)
    as [[Hnil ->] | [Hne ->]].
  - split.
    + split; [intros [x Hx]; discriminate |].
      intros (r & Hr & [m Hm]). exfalso.
      assert (m ∈ omap (resolve (build_registry root)) (group_refs child_tag el)) as Hin.
      { apply list_elem_of_omap. exists r. split; [apply list_elem_of_In, Hr | exact Hm]. }
      rewrite Hnil in Hin. inversion Hin.
    + intros g Hg. discriminate.
  - split.
    + split; [| intros _; eexists; reflexivity].
      intros _.
      destruct (omap (resolve (build_registry root)) (group_refs child_tag el))
        as [|m ms] eqn:E; [congruence |].
      assert (m ∈ omap (resolve (build_registry root)) (group_refs child_tag el)) as Hin
        by (rewrite E; left).
      apply list_elem_of_omap in Hin as (r & Hr & Hm).
      exists r. split; [apply list_elem_of_In, Hr | rewrite Hm; eexists; reflexivity].
    + intros g [= <-]. split; reflexivity.
Qed.

Lemma group_record_emitted_witness :
  exists g, In g (net_groups (extract_objects (fun _ => None) scenario3_doc))
            /\ group_member g = ["WebSrv"; "DNS"]
            /\ group_skipped_refs g = ["GhostObj"].
Proof.
  destruct (group_record_emitted (fun _ => None) scenario3_doc) as (Hnet & _ & Hrec).
  destruct (Hrec "ne_list" scenario3_group) as [_ Hfields].
  eexists. split.
  - apply Hnet. exists scenario3_group. split.
    + vm_compute. left. reflexivity.
    + vm_compute. reflexivity.
  - apply (Hfields _ eq_refl).
Defined.

Lemma attr_get_missing (el : Element) (k dflt : string) :
  Dict.get k (attrib el) = None -> attr_get el k dflt = dflt.
Proof. unfold attr_get. intros ->. reflexivity. Qed.

(** C10: a TCP or UDP service element without a maximum destination port
    whose minimum destination port is not blank yields a record whose port
    range is the trimmed minimum port alone. *)
Theorem service_single_port (reg : Registry) (tcp : bool) (el : Element) :
  Dict.get "max_dst_port" (attrib el) = None ->
  PyStr.strip (attr_get el "min_dst_port" "") <> "" ->
  exists r, service_record reg tcp el = Some r
            /\ svc_protocol r = (if tcp then "TCP" else "UDP")
            /\ svc_portrange r = Some (PyStr.strip (attr_get el "min_dst_port" ""))
            /\ svc_tcp_portrange r
               = (if tcp then Some (PyStr.strip (attr_get el "min_dst_port" "")) else None)
            /\ svc_udp_portrange r
               = (if tcp then None else Some (PyStr.strip (attr_get el "min_dst_port" ""))).
Proof.
  intros Hmax Hmin. unfold service_record. cbv zeta.
  rewrite (attr_get_missing el "max_dst_port") by exact Hmax.
  rewrite strip_idem, String.eqb_refl, andb_false_r.
  apply is_empty_false in Hmin. rewrite Hmin.
  eexists. split; [reflexivity |]. destruct tcp; repeat split.
Qed.

Lemma service_single_port_witness :
  exists r,
    service_record (mkRegistry ∅ ∅) true
      (Elem "service_tcp" [("name", "web"); ("min_dst_port", " 8080 ")] None [])
    = Some r
    /\ svc_portrange r = Some "8080".
Proof.
  destruct (service_single_port (mkRegistry ∅ ∅) true
              (Elem "service_tcp" [("name", "web"); ("min_dst_port", " 8080 ")] None []))
    as (r & Hr & _ & Hp & _).
  - reflexivity.
  - vm_compute. discriminate.
  - exists r. split; [exact Hr | exact Hp].
Defined.

Lemma sanitized_valid (orig : string) : valid_name (sanitized orig max_len_default).
Proof.
  split; [apply sanitized_nonempty |].
  split; [apply sanitized_length | apply sanitized_charset].
Qed.

Lemma all_chars_map_when (q p : ascii -> bool) (f : ascii -> ascii) (s : string) :
  (forall c, q c = true -> p (f c) = true) ->
  PyStr.all_chars q s = true -> PyStr.all_chars p (PyStr.map_chars f s) = true.
Proof.
  intros Hf; induction s as [|c s IH]; simpl; auto.
  intros [Hc Hs]%andb_prop. rewrite (Hf c Hc); simpl; auto.
Qed.

Lemma grammar_char_kept (c : ascii) :
  is_ascii c = true -> grammar_char (if legal_char c then c else "_"%char) = true.
Proof.
  destruct c as [[] [] [] [] [] [] [] []]; vm_compute; intros H;
    solve [reflexivity | discriminate H].
Qed.

(** A name of code points below 128 is sanitized into the characters of
    the naming grammar. *)
Lemma sanitized_ascii (orig : string) (n : nat) :
  PyStr.all_chars is_ascii orig = true ->
  PyStr.all_chars grammar_char (sanitized orig n) = true.
Proof.
  intros Hascii. unfold sanitized. apply all_chars_take.
  match goal with |- context [if PyStr.is_empty ?s then _ else _] =>
    destruct (PyStr.is_empty s) end; [reflexivity |].
  apply all_chars_rstrip. unfold PyStr.strip_chars.
  apply all_chars_rstrip, all_chars_lstrip.
  apply all_chars_sub_runs; [reflexivity |].
  apply (all_chars_map_when is_ascii); [exact grammar_char_kept |].
  unfold PyStr.strip, PyStr.strip_chars.
  apply all_chars_rstrip, all_chars_lstrip, Hascii.
Qed.

(** Every element with a name-bearing tag has its name registered. *)
Lemma mapped_declared_name (root : Element) (t : string) (el : Element) :
  In t xml_object_tags -> In el (iter root t) ->
  named_after el (declared_name el)
    (mapped_name (build_registry root) (declared_name el)).
Proof.
  intros Ht Hel. pose proof (build_registry_ok root (declared_name el)) as [Hin Hout].
  split; [reflexivity |]. split.
  - intros Hne. rewrite Hin.
    + split; [reflexivity |]. split; [apply sanitized_nonempty |].
      split; [apply sanitized_length | apply sanitized_ascii].
    + apply build_registry_names. eauto 6.
  - intros He. unfold mapped_name. rewrite Hout, He; [reflexivity |].
    rewrite build_registry_names. intros (t' & el' & _ & _ & _ & Hne).
    congruence.
Qed.

Lemma collected_names {R} (root : Element) (t : string)
    (f : Element -> option R) (orig name : R -> string) :
  In t xml_object_tags ->
  (forall el r, f el = Some r ->
     (orig r, name r) = (declared_name el,
                         mapped_name (build_registry root) (declared_name el))) ->
  forall r, In r (collect f (iter root t)) ->
    exists el, In el (iter root t) /\ f el = Some r
               /\ named_after el (orig r) (name r).
Proof.
  intros Ht Hf r Hr.
  apply collect_In in Hr as (el & Hel & Hr).
  exists el. split; [exact Hel |]. split; [exact Hr |].
  injection (Hf _ _ Hr) as -> ->. eapply mapped_declared_name; eauto.
Qed.

Lemma host_record_names (reg : Registry) (el : Element) (r : AddressRecord) :
  host_record reg el = Some r ->
  (addr_orig_name r, addr_name r)
  = (declared_name el, mapped_name reg (declared_name el)).
Proof.
  unfold host_record. cbv zeta.
  destruct (PyStr.is_empty _); [discriminate |]. intros [= <-]. reflexivity.
Qed.

Lemma network_record_names (ipv4_network : string -> option (string * string))
    (reg : Registry) (el : Element) (r : AddressRecord) :
  network_record ipv4_network reg el = Some r ->
  (addr_orig_name r, addr_name r)
  = (declared_name el, mapped_name reg (declared_name el)).
Proof.
  unfold network_record. cbv zeta.
  destruct (negb _); [discriminate |].
  destruct (ipv4_network _) as [[ip mask] |]; [| discriminate].
  intros [= <-]. reflexivity.
Qed.

Lemma range_record_names (reg : Registry) (el : Element) (r : RangeRecord) :
  range_record reg el = Some r ->
  (range_orig_name r, range_name r)
  = (declared_name el, mapped_name reg (declared_name el)).
Proof.
  unfold range_record. cbv zeta.
  destruct (PyStr.split_once _ _) as [[a b] |]; [| discriminate].
  intros [= <-]. reflexivity.
Qed.

Lemma group_record_names (reg : Registry) (child_tag : string) (el : Element)
    (r : GroupRecord) :
  group_record reg child_tag el = Some r ->
  (group_orig_name r, group_name r)
  = (declared_name el, mapped_name reg (declared_name el)).
Proof.
  destruct (group_record_cases reg child_tag el) as [[_ ->] | [_ ->]];
    [discriminate |].
  intros [= <-]. reflexivity.
Qed.

Lemma service_record_names (reg : Registry) (tcp : bool) (el : Element)
    (r : ServiceRecord) :
  service_record reg tcp el = Some r ->
  (svc_orig_name r, svc_name r)
  = (declared_name el, mapped_name reg (declared_name el)).
Proof.
  unfold service_record. cbv zeta.
  destruct (PyStr.is_empty _); [discriminate |]. intros [= <-]. reflexivity.
Qed.

(** C4 (as stated, fails): a host element with an address and no name
    yields a record whose name is empty. *)
Lemma unnamed_host_record :
  ~ (forall (ipv4_network : string -> option (string * string))
            (root : Element) (p : string * string),
        In p (record_names (extract_objects ipv4_network root)) ->
        valid_name (snd p)).
Proof.
  intros H.
  destruct (H (fun _ => None) unnamed_host_doc ("", "")) as [Hne _].
  - vm_compute. left. reflexivity.
  - apply Hne. reflexivity.
Qed.

(** A letter above code point 127 is a word character of the pattern: the
    sanitizer keeps it, and the record's name is outside [a-z A-Z 0-9 - _ .] *)
Example latin_host_record :
  exists r, hosts (extract_objects (fun _ => None) latin_host_doc) = [r]
            /\ addr_name r = String (ascii_of_nat 233) ""
            /\ PyStr.all_chars grammar_char (addr_name r) = false.
Proof. eexists. split; [vm_compute; reflexivity |]. split; reflexivity. Qed.

(** C4 (amended): every record of an extraction is made from an element of
    its tag by the loop of its category, and its two names follow from
    that element: the original name is the element's trimmed name; when
    that is not empty, the name is its sanitized form, non-empty, at most
    79 characters long and, for a name of code points below 128, made of
    [a-z A-Z 0-9 - _ .] only; when the element has no name, or a blank
    one, the name is empty. *)
Theorem record_names_valid
    (ipv4_network : string -> option (string * string)) (root : Element) :
  let reg := build_registry root in
  let out := extract_objects ipv4_network root in
  (forall r, In r (hosts out) ->
     exists el, In el (iter root "host") /\ host_record reg el = Some r
                /\ named_after el (addr_orig_name r) (addr_name r))
  /\ (forall r, In r (networks out) ->
        exists el, In el (iter root "network")
                   /\ network_record ipv4_network reg el = Some r
                   /\ named_after el (addr_orig_name r) (addr_name r))
  /\ (forall r, In r (addr_ranges out) ->
        exists el, In el (iter root "address_range") /\ range_record reg el = Some r
                   /\ named_after el (range_orig_name r) (range_name r))
  /\ (forall r, In r (net_groups out) ->
        exists el, In el (iter root "group")
                   /\ group_record reg "ne_list" el = Some r
                   /\ named_after el (group_orig_name r) (group_name r))
  /\ (forall r, In r (services out) ->
        exists tcp el,
          In el (iter root (if tcp : bool then "service_tcp" else "service_udp"))
          /\ service_record reg tcp el = Some r
          /\ named_after el (svc_orig_name r) (svc_name r))
  /\ (forall r, In r (service_groups out) ->
        exists el, In el (iter root "gen_service_group")
                   /\ group_record reg "service_ref" el = Some r
                   /\ named_after el (group_orig_name r) (group_name r)).
Proof.
  cbv zeta. unfold extract_objects.
  cbn [hosts networks addr_ranges net_groups services service_groups].
  split; [| split; [| split; [| split; [| split]]]].
  - apply (collected_names root "host"); [vm_compute; tauto |].
    apply host_record_names.
  - apply (collected_names root "network"); [vm_compute; tauto |].
    apply network_record_names.
  - apply (collected_names root "address_range"); [vm_compute; tauto |].
    apply range_record_names.
  - apply (collected_names root "group"); [vm_compute; tauto |].
    apply group_record_names.
  - intros r [Hr | Hr]%in_app_or.
    + exists true. revert r Hr.
      apply (collected_names root "service_tcp"); [vm_compute; tauto |].
      apply service_record_names.
    + exists false. revert r Hr.
      apply (collected_names root "service_udp"); [vm_compute; tauto |].
      apply service_record_names.
  - apply (collected_names root "gen_service_group"); [vm_compute; tauto |].
    apply group_record_names.
Qed.

Lemma record_names_valid_witness :
  exists el, In el (iter scenario3_doc "group")
             /\ named_after el "Web Group" "Web_Group".
Proof.
  destruct (record_names_valid (fun _ => None) scenario3_doc)
    as (_ & _ & _ & Hgroup & _).
  destruct (Hgroup (mkGroup "Web Group" "Web_Group" ["WebSrv"; "DNS"] ["GhostObj"]))
    as (el & Hel & _ & Hnames).
  - vm_compute. left. reflexivity.
  - exists el. split; [exact Hel | exact Hnames].
Defined.

(** ** Push loop *)

(** Building the payload sends nothing. *)
Lemma build_payload_pure (obj_type name : string) (item : Item) :
  exists res, forall log, build_payload obj_type name item log = (res, log).
Proof.
  unfold build_payload, get_item, bind, ret, raise.
  repeat match goal with
         | |- context [if ?b then _ else _] => destruct b
         | |- context [match ?o with Some _ => _ | None => _ end] => destruct o
         end; eexists; intros log; reflexivity.
Qed.

Lemma build_payload_skips (obj_type name : string) (item : Item)
    (skips : list PushResult) (payload : Payload) (log log' : list Request) :
  build_payload obj_type name item log = (inl (Some (skips, payload)), log') ->
  forall r, In r skips -> res_status r = "skip".
Proof.
  unfold build_payload, get_item, bind, ret, raise.
  repeat match goal with
         | |- context [if ?b then _ else _] => destruct b
         | |- context [match ?o with Some _ => _ | None => _ end] => destruct o
         end; intros [= <- <- <-] r Hr;
    try (apply in_map_iff in Hr as (ref & <- & _); reflexivity);
    try (destruct Hr).
Qed.

(** Every payload carries the canonical name under [name]. *)
Lemma build_payload_name (obj_type name : string) (item : Item)
    (skips : list PushResult) (payload : Payload) (log log' : list Request) :
  build_payload obj_type name item log = (inl (Some (skips, payload)), log') ->
  Dict.get "name" payload = Some (JStr name).
Proof.
  unfold build_payload, get_item, bind, ret, raise.
  repeat match goal with
         | |- context [if ?b then _ else _] => destruct b
         | |- context [match ?o with Some _ => _ | None => _ end] => destruct o
         end; intros [= <- <- <-]; reflexivity.
Qed.

Lemma EP_cases (obj_type ep : string) :
  Dict.get obj_type EP = Some ep ->
  In obj_type ["hosts"; "networks"; "addr_ranges"; "net_groups"; "services";
               "service_groups"].
Proof.
  unfold EP. simpl.
  repeat match goal with
         | |- (if String.eqb ?a ?b then _ else _) = _ -> _ =>
             destruct (String.eqb_spec a b) as [-> |]; [intros _; tauto |]
         end.
  discriminate.
Qed.

Lemma build_payload_required (obj_type ep name : string) (item : Item) :
  Dict.get obj_type EP = Some ep ->
  has_required_fields obj_type item = true ->
  exists skips payload,
    forall log, build_payload obj_type name item log = (inl (Some (skips, payload)), log).
Proof.
  intros Hep%EP_cases.
  unfold has_required_fields, build_payload, get_item, bind, ret, raise.
  repeat (destruct Hep as [<- | Hep]; [cbn [in_strings existsb orb String.eqb Ascii.eqb Bool.eqb] |]);
    [ .. | destruct Hep ].
  all: intros Hreq.
  all: repeat match goal with
         | |- context [if ?b then _ else _] => destruct b
         | |- context [match ?o with Some _ => _ | None => _ end] => destruct o
         end; try discriminate; eauto.
Qed.


Lemma upsert_run (fg : FGClient) (ep name : string) (payload : Payload)
    (existing : gset string) (log : list Request) :
  upsert fg ep name payload existing log
  = (match send fg log (upsert_request ep name payload existing) with
     | inl r => inl (status_code r, PyStr.take 400 (resp_text r))
     | inr e => inr e
     end,
     (log ++ [upsert_request ep name payload existing])%list).
Proof.
  unfold upsert, upsert_request, put, post, bind, http, ret.
  destruct (decide (name ∈ existing));
    match goal with |- context [send fg log ?rq] => destruct (send fg log rq) end;
    reflexivity.
Qed.

(** One iteration of the loop, when the payload gets built. *)
Lemma push_item_built (fg : FGClient) (ep obj_type : string)
    (results : list PushResult) (existing : gset string) (item : Item)
    (skips : list PushResult) (payload : Payload) (log : list Request) :
  let name := item_key item in
  let orig := get_or (item_orig_name item) name in
  let rq := upsert_request ep name payload existing in
  name <> "" ->
  (forall l, build_payload obj_type name item l = (inl (Some (skips, payload)), l)) ->
  push_object fg ep obj_type (results, existing) item log
  = (inl (match send fg log rq with
          | inl r =>
              if is_success (status_code r)
              then ((results ++ skips ++
                     [mkResult "ok" name orig None (Some (status_code r))])%list,
                    {[ name ]} ∪ existing)
              else ((results ++ skips ++
                     [mkResult "err" name orig
                        (Some (http_error (status_code r)
                                 (PyStr.take 400 (resp_text r)))) None])%list,
                    existing)
          | inr e =>
              ((results ++ skips ++
                [mkResult "err" name orig (Some (PyStr.take 150 e)) None])%list,
               existing)
          end),
     (log ++ [rq])%list).
Proof.
  cbv zeta. intros Hname Hbuild. unfold push_object. fold (item_key item).
  apply is_empty_false in Hname. rewrite Hname.
  unfold try_catch, bind. rewrite Hbuild, upsert_run.
  destruct (send fg log _) as [r | e]; [destruct (is_success (status_code r)) |];
    unfold ret; rewrite <- app_assoc; reflexivity.
Qed.

(** One iteration of the loop, when no request is sent. *)
Lemma push_item_silent (fg : FGClient) (ep obj_type : string)
    (results : list PushResult) (existing : gset string) (item : Item)
    (log : list Request) :
  let name := item_key item in
  name = ""
  \/ (exists e, forall l, build_payload obj_type name item l = (inr e, l))
  \/ (forall l, build_payload obj_type name item l = (inl None, l)) ->
  exists r, res_status r <> "ok"
            /\ push_object fg ep obj_type (results, existing) item log
               = (inl ((results ++ [r])%list, existing), log).
Proof.
  cbv zeta. unfold push_object. fold (item_key item).
  destruct (PyStr.is_empty (item_key item)) eqn:E.
  - intros _. eexists. split; [| reflexivity]. discriminate.
  - apply is_empty_false in E.
    intros [Hn | [[e Hb] | Hb]]; [contradiction | |];
      unfold try_catch, bind, ret; rewrite Hb;
      (eexists; split; [| reflexivity]; discriminate).
Qed.

Lemma upsert_request_on (ep name : string) (payload : Payload)
    (existing : gset string) :
  upsert_on ep (upsert_request ep name payload existing).
Proof. unfold upsert_request. destruct (decide _); reflexivity. Qed.

Lemma upsert_request_existing (ep name : string) (payload : Payload)
    (existing : gset string) :
  name ∈ existing -> upsert_request ep name payload existing = PUT ep name payload.
Proof. unfold upsert_request. destruct (decide _); tauto. Qed.

Lemma upsert_request_name (ep name : string) (payload : Payload)
    (existing : gset string) :
  Dict.get "name" payload = Some (JStr name) ->
  request_name (upsert_request ep name payload existing) = Some name.
Proof.
  intros H. unfold upsert_request. destruct (decide _); simpl; [reflexivity |].
  rewrite H. reflexivity.
Qed.

(** The two ways an iteration on a well-formed item ends: with one more
    entry and nothing sent, or with the skip entries, one last entry and
    one request, whose acceptance decides the entry and the set. *)
Lemma push_object_cases (fg : FGClient) (ep obj_type : string)
    (results : list PushResult) (existing : gset string) (item : Item)
    (log : list Request) :
  (exists r, res_status r <> "ok"
             /\ push_object fg ep obj_type (results, existing) item log
                = (inl ((results ++ [r])%list, existing), log))
  \/ (exists skips payload last,
        let name := item_key item in
        let rq := upsert_request ep name payload existing in
        name <> ""
        /\ Dict.get "name" payload = Some (JStr name)
        /\ (forall r, In r skips -> res_status r = "skip")
        /\ (obj_type <> "net_groups" -> obj_type <> "service_groups" -> skips = [])
        /\ res_name last = name
        /\ (res_status last = "ok" -> accepted_by fg log rq = true)
        /\ push_object fg ep obj_type (results, existing) item log
           = (inl ((results ++ skips ++ [last])%list,
                   if accepted_by fg log rq then {[ name ]} ∪ existing else existing),
              (log ++ [rq])%list)).
Proof.
  destruct (build_payload_pure obj_type (item_key item) item) as [res Hres].
  destruct (PyStr.is_empty (item_key item)) eqn:Ename.
  { apply is_empty_true in Ename. left.
    apply push_item_silent. auto. }
  apply is_empty_false in Ename.
  destruct res as [[[skips payload] |] | e].
  - right.
    pose proof (push_item_built fg ep obj_type results existing item skips payload log
                  Ename Hres) as Hrun.
    cbv zeta in Hrun. cbv zeta.
    pose proof (build_payload_skips _ _ _ _ _ _ _ (Hres [])) as Hskips.
    pose proof (build_payload_name _ _ _ _ _ _ _ (Hres [])) as Hname.
    assert (obj_type <> "net_groups" -> obj_type <> "service_groups" -> skips = [])
      as Hnone.
    { intros Hn Hs. specialize (Hres []). revert Hres.
      unfold build_payload, get_item, bind, ret, raise.
      destruct (String.eqb_spec obj_type "net_groups"); [contradiction |].
      destruct (String.eqb_spec obj_type "service_groups"); [contradiction |].
      repeat match goal with
             | |- context [if ?b then _ else _] => destruct b
             | |- context [match ?o with Some _ => _ | None => _ end] => destruct o
             end; intros [= <- <-]; reflexivity. }
    exists skips, payload. unfold accepted_by. change success_code with is_success.
    destruct (send fg log _) as [r | e]; [destruct (is_success (status_code r)) |];
      eexists; (split; [exact Ename |]); (split; [exact Hname |]);
      (split; [exact Hskips |]); (split; [exact Hnone |]);
      (split; [| split; [| exact Hrun]]); simpl; solve [reflexivity | discriminate].
  - left. apply push_item_silent. auto.
  - left. apply push_item_silent. eauto.
Qed.

Lemma push_items_app (fg : FGClient) (ep obj_type : string)
    (l1 l2 : list RawItem) (st : PushState) (log : list Request) :
  push_items fg ep obj_type st (l1 ++ l2)%list log
  = match push_items fg ep obj_type st l1 log with
    | (inl st', log') => push_items fg ep obj_type st' l2 log'
    | (inr e, log') => (inr e, log')
    end.
Proof.
  revert st log; induction l1 as [|raw l1 IH]; intros st log; [reflexivity |].
  cbn [app push_items]. unfold bind.
  destruct (push_item fg ep obj_type st raw log) as [[st' | e] log']; [apply IH | reflexivity].
Qed.

(** The requests of a run of the loop, whether it ends or aborts: each is
    a create or an update for a non-empty name; a name of the existing
    set is only updated; and so is a name once a request for it has been
    accepted. *)
Lemma push_items_trace (fg : FGClient) (ep obj_type : string)
    (items : list RawItem) (results : list PushResult) (existing : gset string)
    (log : list Request) :
  exists outcome reqs,
    push_items fg ep obj_type (results, existing) items log
    = (outcome, (log ++ reqs)%list)
    /\ (List.length reqs <= List.length items)%nat
    /\ Forall (fun rq => upsert_on ep rq
                         /\ exists n, n <> "" /\ request_name rq = Some n) reqs
    /\ (forall rq n, In rq reqs -> request_name rq = Some n -> n ∈ existing ->
          exists payload, rq = PUT ep n payload)
    /\ (forall before rq between rq' after n,
          reqs = (before ++ rq :: between ++ rq' :: after)%list ->
          request_name rq = Some n -> request_name rq' = Some n ->
          accepted_by fg (log ++ before)%list rq = true ->
          exists payload, rq' = PUT ep n payload).
Proof.
  revert results existing log; induction items as [|raw items IH];
    intros results existing log; cbn [push_items].
  - exists (inl (results, existing)), []. unfold ret. rewrite app_nil_r.
    split; [reflexivity |]. split; [simpl; lia |]. split; [constructor |].
    split; [intros rq n [] |].
    intros before rq between rq' after n H. destruct before; discriminate.
  - assert (forall e, push_item fg ep obj_type (results, existing) raw log = (inr e, log) ->
              exists outcome reqs,
                bind (push_item fg ep obj_type (results, existing) raw)
                  (fun st' => push_items fg ep obj_type st' items) log
                = (outcome, (log ++ reqs)%list)
                /\ (List.length reqs <= List.length (raw :: items))%nat
                /\ Forall (fun rq => upsert_on ep rq
                                     /\ exists n, n <> "" /\ request_name rq = Some n)
                     reqs
                /\ (forall rq n, In rq reqs -> request_name rq = Some n -> n ∈ existing ->
                      exists payload, rq = PUT ep n payload)
                /\ (forall before rq between rq' after n,
                      reqs = (before ++ rq :: between ++ rq' :: after)%list ->
                      request_name rq = Some n -> request_name rq' = Some n ->
                      accepted_by fg (log ++ before)%list rq = true ->
                      exists payload, rq' = PUT ep n payload)) as Habort.
    { intros e He. exists (inr e), []. unfold bind. rewrite He, app_nil_r.
      split; [reflexivity |]. split; [simpl; lia |]. split; [constructor |].
      split; [intros rq n [] |].
      intros before rq between rq' after n H. destruct before; discriminate. }
    destruct raw as [item | ty | ty]; [| eapply Habort; reflexivity ..].
    clear Habort. cbn [push_item].
    destruct (push_object_cases fg ep obj_type results existing item log)
      as [(r & _ & Hrun) | (skips & payload & last & Hcase)].
    + destruct (IH (results ++ [r])%list existing log)
        as (outcome & reqs & Hrest & Hlen & Hnamed & Hknown & Hpair).
      exists outcome, reqs. unfold bind. rewrite Hrun.
      split; [exact Hrest |]. split; [simpl; lia |]. auto.
    + cbv zeta in Hcase.
      destruct Hcase as (Hne & Hname & _ & _ & _ & _ & Hrun).
      set (name := item_key item) in *.
      set (rq1 := upsert_request ep name payload existing) in *.
      set (existing1 := if accepted_by fg log rq1 then {[ name ]} ∪ existing
                        else existing) in *.
      assert (existing ⊆ existing1) as Hsub
        by (subst existing1; destruct (accepted_by fg log rq1); set_solver).
      assert (request_name rq1 = Some name) as Hrq1
        by (apply upsert_request_name, Hname).
      destruct (IH (results ++ skips ++ [last])%list existing1 (log ++ [rq1])%list)
        as (outcome & reqs & Hrest & Hlen & Hnamed & Hknown & Hpair).
      exists outcome, (rq1 :: reqs). unfold bind. rewrite Hrun, Hrest, <- app_assoc.
      split; [reflexivity |]. split; [simpl; lia |].
      split; [constructor; [| exact Hnamed] |].
      { split; [apply upsert_request_on | exists name; auto]. }
      split.
      * intros rq n [<- | Hin] Hn Hex.
        -- rewrite Hrq1 in Hn. injection Hn as <-.
           exists payload. apply upsert_request_existing, Hex.
        -- apply (Hknown rq n Hin Hn). set_solver.
      * intros before rq between rq' after n Hsplit Hn Hn' Hacc.
        destruct before as [|b0 before]; cbn [app] in Hsplit;
          injection Hsplit as <- Hreqs.
        -- rewrite app_nil_r in Hacc. rewrite Hrq1 in Hn. injection Hn as <-.
           apply (Hknown rq' name); [rewrite Hreqs; apply in_elt | exact Hn' |].
           subst existing1. rewrite Hacc. set_solver.
        -- apply (Hpair before rq between rq' after n Hreqs Hn Hn').
           rewrite <- app_assoc. exact Hacc.
Qed.

(** The state of a run of the loop that ends: the existing set has only
    grown, and it holds the name of every [ok] entry added. *)
Lemma push_items_state (fg : FGClient) (ep obj_type : string)
    (items : list RawItem) (results : list PushResult) (existing : gset string)
    (log : list Request) (st' : PushState) (log' : list Request) :
  push_items fg ep obj_type (results, existing) items log = (inl st', log') ->
  existing ⊆ snd st'
  /\ exists new, fst st' = (results ++ new)%list
       /\ forall r, In r new -> res_status r = "ok" -> res_name r ∈ snd st'.
Proof.
  revert results existing log; induction items as [|raw items IH];
    intros results existing log; cbn [push_items].
  - unfold ret. intros [= <- _]. cbn [fst snd]. split; [set_solver |].
    exists []. rewrite app_nil_r. split; [reflexivity | intros r []].
  - destruct raw as [item | ty | ty]; cbn [push_item]; unfold bind;
      [| unfold raise; discriminate ..].
    destruct (push_object_cases fg ep obj_type results existing item log)
      as [(r & Hr & Hrun) | (skips & payload & last & Hcase)].
    + rewrite Hrun. intros Hrest.
      destruct (IH _ _ _ Hrest) as (Hsub & new & Hnew & Hok).
      split; [exact Hsub |]. exists (r :: new).
      rewrite Hnew, <- app_assoc. split; [reflexivity |].
      intros r' [<- | Hin] Hst; [contradiction | auto].
    + cbv zeta in Hcase.
      destruct Hcase as (_ & _ & Hskips & _ & Hlast & Hacc & Hrun).
      rewrite Hrun. intros Hrest.
      destruct (IH _ _ _ Hrest) as (Hsub & new & Hnew & Hok).
      split.
      { destruct (accepted_by fg log _); set_solver. }
      exists (skips ++ last :: new)%list.
      rewrite Hnew, <- !app_assoc. split; [reflexivity |].
      intros r' Hin Hst. apply in_app_or in Hin as [Hin | [<- | Hin]].
      * rewrite (Hskips _ Hin) in Hst. discriminate.
      * rewrite (Hacc Hst) in Hsub. rewrite Hlast. set_solver.
      * auto.
Qed.

(** A run of the loop over well-formed items ends: it adds at least one
    result per item and sends at most one request per item; outside the
    group categories it adds exactly one result per item. *)
Lemma push_items_counts (fg : FGClient) (ep obj_type : string)
    (items : list Item) (results : list PushResult) (existing : gset string)
    (log : list Request) :
  exists new reqs existing',
    push_items fg ep obj_type (results, existing) (map ItemObject items) log
    = (inl ((results ++ new)%list, existing'), (log ++ reqs)%list)
    /\ (List.length items <= List.length new)%nat
    /\ (List.length reqs <= List.length items)%nat
    /\ (obj_type <> "net_groups" -> obj_type <> "service_groups" ->
        List.length new = List.length items).
Proof.
  revert results existing log; induction items as [|item items IH];
    intros results existing log; cbn [map push_items push_item].
  - exists [], [], existing. unfold ret. rewrite !app_nil_r. simpl. auto.
  - unfold bind.
    destruct (push_object_cases fg ep obj_type results existing item log)
      as [(r & _ & Hrun) | (skips & payload & last & Hcase)].
    + rewrite Hrun.
      destruct (IH (results ++ [r])%list existing log)
        as (new2 & reqs2 & ex2 & Hrun2 & Hn2 & Hr2 & He2).
      exists (r :: new2), reqs2, ex2. rewrite Hrun2, <- app_assoc.
      split; [reflexivity |]. simpl. split; [lia |]. split; [lia |].
      intros Hn Hs. rewrite (He2 Hn Hs). reflexivity.
    + cbv zeta in Hcase. destruct Hcase as (_ & _ & _ & Hnone & _ & _ & Hrun).
      rewrite Hrun.
      match goal with |- context [push_items fg ep obj_type (?res, ?ex) _ ?l] =>
        destruct (IH res ex l) as (new2 & reqs2 & ex2 & Hrun2 & Hn2 & Hr2 & He2) end.
      exists (skips ++ last :: new2)%list,
        (upsert_request ep (item_key item) payload existing :: reqs2), ex2.
      rewrite Hrun2, <- !app_assoc.
      split; [reflexivity |]. rewrite length_app. simpl.
      split; [lia |]. split; [lia |].
      intros Hn Hs. rewrite (Hnone Hn Hs), (He2 Hn Hs). reflexivity.
Qed.

Lemma fg_push_run (fg : FGClient) (obj_type ep : string) (items : list RawItem)
    (log : list Request) :
  Dict.get obj_type EP = Some ep ->
  fg_push (Some fg) obj_type items log
  = match get_existing fg ep log with
    | (inl existing, log1) =>
        match push_items fg ep obj_type ([], existing) items log1 with
        | (inl (results, _), log') => (ResultsResponse results, log')
        | (inr e, log') => (ErrorResponse e 500, log')
        end
    | (inr e, log1) => (ErrorResponse e 500, log1)
    end.
Proof.
  intros Hep. unfold fg_push. rewrite Hep.
  assert (PyStr.is_empty ep = false) as ->.
  { revert Hep. unfold EP. simpl.
    repeat match goal with
           | |- (if ?b then _ else _) = _ -> _ =>
               destruct b; [intros [= <-]; reflexivity |]
           end.
    discriminate. }
  unfold bind. destruct (get_existing fg ep log) as [[existing | e] log1]; reflexivity.
Qed.

(** Two records of one run with the same canonical name: when the run up
    to the first ends with an [ok] entry, the run up to the second sends
    for it, last, an update of that name. *)
Lemma push_items_repeat (fg : FGClient) (ep obj_type : string)
    (pre mid : list Item) (a b : Item) (results : list PushResult)
    (existing : gset string) (log : list Request)
    (st1 : PushState) (l1 : list Request) (front : list PushResult)
    (r : PushResult) :
  Dict.get obj_type EP = Some ep ->
  item_key b = item_key a ->
  has_required_fields obj_type b = true ->
  push_items fg ep obj_type (results, existing) (map ItemObject (pre ++ [a])) log
  = (inl st1, l1) ->
  fst st1 = (front ++ [r])%list ->
  res_status r = "ok" ->
  exists st2 l2 st3 payload,
    push_items fg ep obj_type (results, existing)
      (map ItemObject (pre ++ a :: mid)) log = (inl st2, l2)
    /\ push_items fg ep obj_type (results, existing)
         (map ItemObject (pre ++ a :: mid ++ [b])) log
       = (inl st3, (l2 ++ [PUT ep (item_key a) payload])%list).
Proof.
  intros Hep Hkey Hreq Hrun Hfront Hok.
  rewrite map_app, push_items_app in Hrun.
  destruct (push_items_counts fg ep obj_type pre results existing log)
    as (new_p & reqs_p & ex_p & Hp & _).
  rewrite Hp in Hrun. cbn [map push_items push_item] in Hrun. unfold bind in Hrun.
  destruct (push_object_cases fg ep obj_type (results ++ new_p)%list ex_p a
              (log ++ reqs_p)%list)
    as [(r0 & Hr0 & Hrun_a) | (skips & payload_a & last & Hcase)].
  { rewrite Hrun_a in Hrun. unfold ret in Hrun. injection Hrun as <- _.
    cbn [fst] in Hfront. apply app_inj_tail in Hfront as [_ ->]. contradiction. }
  cbv zeta in Hcase. destruct Hcase as (Hne & _ & _ & _ & _ & Hacc & Hrun_a).
  rewrite Hrun_a in Hrun. unfold ret in Hrun. injection Hrun as <- _.
  cbn [fst] in Hfront. rewrite app_assoc in Hfront.
  apply app_inj_tail in Hfront as [_ ->]. specialize (Hacc Hok).
  rewrite Hacc in Hrun_a.
  match type of Hrun_a with _ = (inl (?res, ?ex), ?l) =>
    destruct (push_items_counts fg ep obj_type mid res ex l)
      as (new_m & reqs_m & ex_m & Hm & _);
    pose proof (push_items_state _ _ _ _ _ _ _ _ _ Hm) as [Hsub _]
  end.
  cbn [snd] in Hsub.
  destruct (build_payload_required obj_type ep (item_key b) b Hep Hreq)
    as (skips_b & payload_b & Hbuild).
  assert (item_key b <> "") as Hne_b by (rewrite Hkey; exact Hne).
  assert (item_key b ∈ ex_m) as Hin by (rewrite Hkey; set_solver).
  eexists _, _, _, payload_b. split.
  - rewrite map_app, push_items_app, Hp. cbn [map push_items push_item].
    unfold bind. rewrite Hrun_a. exact Hm.
  - replace (pre ++ a :: mid ++ [b])%list with (pre ++ (a :: mid) ++ [b])%list
      by reflexivity.
    rewrite map_app, push_items_app, Hp.
    rewrite map_app, push_items_app. cbn [map push_items push_item].
    unfold bind at 1. rewrite Hrun_a, Hm. unfold bind.
    rewrite (push_item_built fg ep obj_type _ ex_m b skips_b payload_b _ Hne_b Hbuild).
    rewrite (upsert_request_existing ep (item_key b) payload_b ex_m Hin).
    rewrite <- Hkey. unfold ret. reflexivity.
Qed.

Lemma EP_nonempty (obj_type ep : string) :
  Dict.get obj_type EP = Some ep -> PyStr.is_empty ep = false.
Proof.
  unfold EP. simpl.
  repeat match goal with
         | |- (if ?b then _ else _) = _ -> _ =>
             destruct b; [intros [= <-]; reflexivity |]
         end.
  discriminate.
Qed.

Lemma get_existing_log (fg : FGClient) (ep : string) (log : list Request) :
  snd (get_existing fg ep log) = (log ++ [GET ep])%list.
Proof.
  unfold get_existing, bind, http, ret, raise.
  destruct (send fg log (GET ep)) as [r | e]; [| reflexivity].
  destruct (status_code r =? 200)%Z; [| reflexivity].
  destruct (resp_names r); reflexivity.
Qed.








(** C9: in a category push, whether it ends or aborts, every request after
    the listing is a create or an update for a non-empty name, and once
    a request for a name has been accepted every later request for that
    name is an update, never a create.  When the push of the records up
    to one of them ends with an [ok] outcome, a later record of the same
    push with the same canonical name, carrying the fields of its
    category, is sent, and sent as an update of that name.  In the loop,
    the existing-name set only grows and holds the name of every [ok]
    outcome added. *)
Theorem upsert_after_success (fg : FGClient) (obj_type ep : string)
    (items : list RawItem) (log : list Request) :
  Dict.get obj_type EP = Some ep ->
  (exists reqs,
      snd (fg_push (Some fg) obj_type items log) = (log ++ GET ep :: reqs)%list
      /\ Forall (fun rq => upsert_on ep rq
                           /\ exists n, n <> "" /\ request_name rq = Some n) reqs
      /\ forall before rq between rq' after n,
           reqs = (before ++ rq :: between ++ rq' :: after)%list ->
           request_name rq = Some n -> request_name rq' = Some n ->
           accepted_by fg (log ++ GET ep :: before)%list rq = true ->
           exists payload, rq' = PUT ep n payload)
  /\ (forall (pre mid : list Item) (a b : Item) (front : list PushResult)
             (r : PushResult) (log_a : list Request),
        fg_push (Some fg) obj_type (map ItemObject (pre ++ [a])) log
        = (ResultsResponse (front ++ [r]), log_a) ->
        res_status r = "ok" ->
        item_key b = item_key a ->
        has_required_fields obj_type b = true ->
        exists payload,
          snd (fg_push (Some fg) obj_type
                 (map ItemObject (pre ++ a :: mid ++ [b])) log)
          = (snd (fg_push (Some fg) obj_type (map ItemObject (pre ++ a :: mid)) log)
             ++ [PUT ep (item_key a) payload])%list)
  /\ (forall st st' l l',
        push_items fg ep obj_type st items l = (inl st', l') ->
        snd st ⊆ snd st'
        /\ exists new, fst st' = (fst st ++ new)%list
             /\ forall r, In r new -> res_status r = "ok" -> res_name r ∈ snd st').
Proof.
  intros Hep. split; [| split].
  - unfold fg_push. rewrite Hep, (EP_nonempty _ _ Hep).
    unfold bind. pose proof (get_existing_log fg ep log) as Hlog.
    destruct (get_existing fg ep log) as [[existing | e] log1]; simpl in Hlog; subst log1.
    + destruct (push_items_trace fg ep obj_type items [] existing (log ++ [GET ep])%list)
        as (outcome & reqs & -> & _ & Hnamed & _ & Hpair).
      exists reqs. rewrite <- app_assoc.
      split; [destruct outcome as [[results ex] | e]; reflexivity |].
      split; [exact Hnamed |].
      intros before rq between rq' after n Hsplit Hn Hn' Hacc.
      apply (Hpair before rq between rq' after n Hsplit Hn Hn').
      rewrite <- app_assoc. exact Hacc.
    + exists []. simpl. split; [reflexivity |]. split; [constructor |].
      intros before rq between rq' after n H. destruct before; discriminate.
  - intros pre mid a b front r log_a Hrun Hok Hkey Hreq.
    rewrite !(fg_push_run fg obj_type ep) by exact Hep.
    rewrite (fg_push_run fg obj_type ep) in Hrun by exact Hep.
    destruct (get_existing fg ep log) as [[existing | e] log1]; [| discriminate].
    destruct (push_items fg ep obj_type ([], existing) (map ItemObject (pre ++ [a])) log1)
      as [[[results1 ex1] | e] l1] eqn:Hrun1; [| discriminate].
    injection Hrun as Hres _.
    destruct (push_items_repeat fg ep obj_type pre mid a b [] existing log1
                (results1, ex1) l1 front r Hep Hkey Hreq Hrun1 Hres Hok)
      as ([results2 ex2] & l2 & [results3 ex3] & payload & -> & ->).
    exists payload. reflexivity.
  - intros [results existing] st' l l' Hrun.
    exact (push_items_state fg ep obj_type items results existing l st' l' Hrun).
Qed.

Lemma upsert_after_success_witness :
  exists payload,
    snd (fg_push (Some accepting_client) "hosts"
           (map ItemObject
              ([] ++ host_item "a" "10.0.0.1 255.255.255.255"
                  :: [] ++ [host_item " a " "10.0.0.9 255.255.255.255"])) [])
    = (snd (fg_push (Some accepting_client) "hosts"
              (map ItemObject ([] ++ host_item "a" "10.0.0.1 255.255.255.255" :: []))
              [])
       ++ [PUT "firewall/address"
             (item_key (host_item "a" "10.0.0.1 255.255.255.255")) payload])%list.
Proof.
  destruct (upsert_after_success accepting_client "hosts" "firewall/address" [] []
              eq_refl) as (_ & Hrepeat & _).
  apply (Hrepeat [] [] (host_item "a" "10.0.0.1 255.255.255.255")
           (host_item " a " "10.0.0.9 255.255.255.255")
           [] (mkResult "ok" "a" "a" None (Some 200%Z))
           [GET "firewall/address";
            POST "firewall/address"
              [("name", JStr "a"); ("comment", JStr ""); ("type", JStr "ipmask");
               ("subnet", JStr "10.0.0.1 255.255.255.255")]]).
  - vm_compute. reflexivity.
  - reflexivity.
  - vm_compute. reflexivity.
  - reflexivity.
Defined.

(** ** Dotted column paths *)

Lemma str_app_cons (c : ascii) (a b : string) : String c a ++ b = String c (a ++ b).
Proof. reflexivity. Qed.

Lemma str_app_nil (b : string) : "" ++ b = b.
Proof. reflexivity. Qed.

Lemma str_app_assoc (a b c : string) : (a ++ b) ++ c = a ++ (b ++ c).
Proof.
  induction a as [|x a IH]; [reflexivity |].
  rewrite !str_app_cons, IH. reflexivity.
Qed.

Lemma str_app_inv_head (a b c : string) : a ++ b = a ++ c -> b = c.
Proof.
  induction a as [|x a IH]; [auto |].
  rewrite !str_app_cons. intros [= H]. auto.
Qed.

Lemma with_prefix_app (prefix k : string) : with_prefix prefix k = prefix ++ k.
Proof. unfold with_prefix. destruct prefix; reflexivity. Qed.

Lemma contains_period_app (a x : string) :
  PyStr.contains_char "." (a ++ "." ++ x) = true.
Proof.
  induction a as [|c a IH]; [reflexivity |].
  rewrite str_app_cons. simpl. rewrite IH. apply orb_true_r.
Qed.

(** Two period-free names followed by a period are equal as soon as one
    path continues the other. *)
Lemma no_period_head (t t' x y : string) :
  no_period t = true -> no_period t' = true ->
  t ++ "." ++ x = t' ++ "." ++ y -> t = t'.
Proof.
  unfold no_period. revert t'; induction t as [|c t IH]; intros [|c' t'];
    rewrite ?str_app_cons, ?str_app_nil.
  - reflexivity.
  - intros _ H [= <- _]. simpl in H. discriminate.
  - intros H _ [= -> _]. simpl in H. discriminate.
  - intros H H' [= -> Heq]. simpl in H, H'.
    apply negb_true_iff, orb_false_elim in H as [_ H].
    apply negb_true_iff, orb_false_elim in H' as [_ H'].
    f_equal. apply IH; [rewrite H | rewrite H' |]; auto.
Qed.

Lemma under_refl (p x : string) : under p (p ++ x).
Proof. exists x. reflexivity. Qed.

Lemma under_trans (p q col : string) : under p q -> under q col -> under p col.
Proof.
  intros [x ->] [y ->]. exists (x ++ y). apply str_app_assoc.
Qed.

(** Columns of different period-free child tags never meet. *)
Lemma not_under_sibling (prefix t t' x : string) :
  no_period t = true -> no_period t' = true -> t <> t' ->
  ~ under (prefix ++ (t' ++ ".")) ((prefix ++ (t ++ ".")) ++ x).
Proof.
  intros Ht Ht' Hne [y Hy]. apply Hne.
  rewrite !str_app_assoc in Hy. apply str_app_inv_head in Hy.
  exact (no_period_head t t' x y Ht Ht' Hy).
Qed.



(** A period-free key of a group never meets a grandchild column. *)
Lemma not_under_grandchild (cp gt k : string) :
  no_period k = true -> ~ under (cp ++ (gt ++ ".")) (cp ++ k).
Proof.
  intros Hk [y Hy]. rewrite str_app_assoc in Hy.
  apply str_app_inv_head in Hy. subst k.
  unfold no_period in Hk. rewrite str_app_assoc in Hk.
  rewrite (contains_period_app gt y) in Hk. discriminate.
Qed.

(** ** Insertion-ordered dictionaries *)

Section DictFacts.

Context {V : Type}.
Implicit Types (d : Dict.t V) (k : string) (v : V).

Lemma dict_get_set_eq k v d : Dict.get k (Dict.set k v d) = Some v.
Proof.
  induction d as [|[k' v'] d IH]; simpl.
  - rewrite String.eqb_refl. reflexivity.
  - destruct (String.eqb k k') eqn:E; simpl; rewrite E; auto.
Qed.

Lemma dict_get_set_ne k k' v d :
  k <> k' -> Dict.get k (Dict.set k' v d) = Dict.get k d.
Proof.
  intros Hne. induction d as [|[k'' v''] d IH]; simpl.
  - destruct (String.eqb_spec k k'); [contradiction | reflexivity].
  - destruct (String.eqb_spec k' k'') as [<- |]; simpl.
    + destruct (String.eqb_spec k k'); [contradiction | reflexivity].
    + rewrite IH. reflexivity.
Qed.

Lemma dict_keys_set k v d x :
  In x (Dict.keys (Dict.set k v d)) <-> x = k \/ In x (Dict.keys d).
Proof.
  unfold Dict.keys. induction d as [|[k' v'] d IH]; simpl.
  - split; intros [H | H]; auto.
  - destruct (String.eqb_spec k k') as [<- |]; simpl.
    + split; [auto | intros [-> | H]; auto].
    + rewrite IH. split; intros [H | [H | H]]; auto.
Qed.

Lemma dict_set_NoDup k v d :
  List.NoDup (Dict.keys d) -> List.NoDup (Dict.keys (Dict.set k v d)).
Proof.
  unfold Dict.keys. induction d as [|[k' v'] d IH]; simpl; intros Hd.
  - constructor; [intros [] | constructor].
  - apply NoDup_cons_iff in Hd as [Hk Hd].
    destruct (String.eqb_spec k k') as [<- | Hne]; simpl.
    + apply NoDup_cons_iff. auto.
    + apply NoDup_cons_iff. split; [| auto].
      intros Hin. apply (dict_keys_set k v d k') in Hin as [-> | Hin]; auto.
Qed.

Lemma dict_get_keys k d : Dict.get k d <> None <-> In k (Dict.keys d).
Proof.
  unfold Dict.keys. induction d as [|[k' v'] d IH]; simpl.
  - split; [congruence | intros []].
  - destruct (String.eqb_spec k k') as [-> | Hne].
    + split; [auto | discriminate].
    + rewrite IH. split; [auto |]. intros [-> | H]; [contradiction | exact H].
Qed.

End DictFacts.



(** ** Tree flattener *)

Lemma Element_nested_ind (P : Element -> Prop) :
  (forall t a x cs, Forall P cs -> P (Elem t a x cs)) -> forall el, P el.
Proof.
  intros H. fix IH 1. intros [t a x cs]. apply H.
  induction cs as [|c cs IHcs]; constructor; [apply IH | exact IHcs].
Qed.

Lemma writes_under_refl (p : string) (d : Dict.t string) : writes_under p d d.
Proof. split; auto. Qed.

Lemma writes_under_trans (p : string) (d1 d2 d3 : Dict.t string) :
  writes_under p d1 d2 -> writes_under p d2 d3 -> writes_under p d1 d3.
Proof.
  intros [Hg1 Hk1] [Hg2 Hk2]. split.
  - intros col Hcol. rewrite Hg2, Hg1; auto.
  - intros col Hcol. destruct (Hk2 col Hcol) as [H | H]; auto.
Qed.

Lemma writes_under_weaken (p q : string) (d d' : Dict.t string) :
  under p q -> writes_under q d d' -> writes_under p d d'.
Proof.
  intros Hpq [Hg Hk]. split.
  - intros col Hcol. apply Hg. intros Hq. apply Hcol. eapply under_trans; eauto.
  - intros col Hcol. destruct (Hk col Hcol) as [H | H]; [auto |].
    right. eapply under_trans; eauto.
Qed.

Lemma writes_under_set (p x v : string) (d : Dict.t string) :
  writes_under p d (Dict.set (p ++ x) v d).
Proof.
  split.
  - intros col Hcol. apply dict_get_set_ne. intros ->. apply Hcol, under_refl.
  - intros col Hcol. apply dict_keys_set in Hcol as [-> | H]; [| auto].
    right. apply under_refl.
Qed.

Lemma writes_under_fold {A} (p : string)
    (f : Dict.t string -> A -> Dict.t string) (l : list A) (d : Dict.t string) :
  (forall d a, In a l -> writes_under p d (f d a)) ->
  writes_under p d (fold_left f l d).
Proof.
  revert d; induction l as [|a l IH]; intros d Hf; simpl.
  - apply writes_under_refl.
  - eapply writes_under_trans; [apply Hf; left; reflexivity |].
    apply IH. intros d' a' Ha'. apply Hf. right. exact Ha'.
Qed.

Lemma writes_under_update (p : string) (d other : Dict.t string) :
  (forall col, In col (Dict.keys other) -> under p col) ->
  writes_under p d (Dict.update d other).
Proof.
  intros Hother. unfold Dict.update. apply writes_under_fold.
  intros d' [k v] Hin. simpl.
  destruct (Hother k) as [x ->]; [| apply writes_under_set].
  apply in_map_iff. exists (k, v). auto.
Qed.

Lemma writes_under_joined (cp : string) (cs : list Element) (row : Dict.t string) :
  writes_under cp row (joined_columns cp cs row).
Proof.
  unfold joined_columns. apply writes_under_fold.
  intros d k _. apply writes_under_set.
Qed.

Lemma writes_under_grandchildren (cp : string) (gs : Dict.t (list Element))
    (row : Dict.t string) :
  writes_under cp row
    (fold_left (fun row ge => joined_columns (cp ++ fst ge ++ ".") (snd ge) row)
       gs row).
Proof.
  apply writes_under_fold. intros d ge _.
  eapply writes_under_weaken; [| apply writes_under_joined]. apply under_refl.
Qed.

Lemma writes_under_group (prefix : string) (row : Dict.t string)
    (entry : string * list Element) :
  writes_under (prefix ++ (fst entry ++ ".")) row (flatten_group prefix row entry).
Proof.
  destruct entry as [t cs]. unfold flatten_group. rewrite with_prefix_app. simpl fst.
  eapply writes_under_trans; [| apply writes_under_grandchildren].
  destruct (child_keys cs); [| apply writes_under_joined].
  destruct (text_values cs); [apply writes_under_refl | apply writes_under_set].
Qed.

Lemma writes_under_singles (rec : Element -> string -> Dict.t string)
    (prefix : string) (cs rest : list Element) (row : Dict.t string) :
  (forall c, In c rest -> (1 <? count_tag (tag c) cs)%nat = false ->
             forall col, In col (Dict.keys (rec c (prefix ++ (tag c ++ ".")))) ->
                         under (prefix ++ (tag c ++ ".")) col) ->
  forall q, (forall c, In c rest -> (1 <? count_tag (tag c) cs)%nat = false ->
                       under q (prefix ++ (tag c ++ "."))) ->
            writes_under q row (flatten_singles rec prefix cs rest row).
Proof.
  revert row; induction rest as [|c rest IH]; intros row Hrec q Hq; simpl.
  - apply writes_under_refl.
  - destruct (1 <? count_tag (tag c) cs)%nat eqn:E.
    + apply IH; intros; [apply Hrec | apply Hq]; simpl; auto.
    + eapply writes_under_trans;
        [| apply IH; intros; [apply Hrec | apply Hq]; simpl; auto].
      rewrite with_prefix_app.
      eapply writes_under_weaken; [apply Hq; simpl; auto |].
      apply writes_under_update. apply Hrec; simpl; auto.
Qed.

(** Every column of a flattened element lies under the prefix it was
    flattened with. *)
Lemma flatten_under (el : Element) :
  forall prefix, writes_under prefix [] (flatten_element el prefix).
Proof.
  induction el as [t attrs txt cs IH] using Element_nested_ind. intros prefix.
  cbn [flatten_element]. rewrite List.Forall_forall in IH.
  eapply writes_under_trans; [| apply writes_under_singles].
  2: { intros c Hc _ col Hcol.
       destruct (IH c Hc (prefix ++ (tag c ++ "."))) as [_ Hk].
       destruct (Hk col Hcol) as [[] | H]. exact H. }
  2: { intros c _ _. apply under_refl. }
  eapply writes_under_trans; [| apply (writes_under_fold prefix)].
  2: { intros d entry _.
       eapply writes_under_weaken; [| apply writes_under_group]. apply under_refl. }
  eapply writes_under_trans.
  2: { rewrite with_prefix_app.
       destruct (stripped_text txt); [apply writes_under_set | apply writes_under_refl]. }
  apply (writes_under_fold prefix). intros d kv _.
  rewrite with_prefix_app. apply writes_under_set.
Qed.









(** The [grouped] dictionary, entry by entry. *)
Lemma dict_get_append_to {V} (k t : string) (x : V) (d : Dict.t (list V)) :
  Dict.get t (Dict.append_to k x d)
  = if String.eqb t k
    then Some (match Dict.get k d with Some l => l ++ [x] | None => [x] end)%list
    else Dict.get t d.
Proof.
  unfold Dict.append_to.
  destruct (String.eqb_spec t k) as [-> | Hne].
  - destruct (Dict.get k d); apply dict_get_set_eq.
  - destruct (Dict.get k d); apply dict_get_set_ne, Hne.
Qed.

Lemma dict_keys_append_to {V} (k : string) (x : V) (d : Dict.t (list V)) :
  (forall y, In y (Dict.keys (Dict.append_to k x d)) <-> y = k \/ In y (Dict.keys d))
  /\ (List.NoDup (Dict.keys d) -> List.NoDup (Dict.keys (Dict.append_to k x d))).
Proof.
  unfold Dict.append_to.
  destruct (Dict.get k d); split;
    (intros y; apply dict_keys_set) || apply dict_set_NoDup.
Qed.



















(** ** Worked scenarios *)

Example scenario1_host :
  collect (host_record (build_registry
             (Elem "root" [] None
                [ Elem "host" [("name", "Sales Laptop #12")] None
                    [ Elem "mvia_address" [("address", "10.0.0.5")] None [] ] ])))
    [ Elem "host" [("name", "Sales Laptop #12")] None
        [ Elem "mvia_address" [("address", "10.0.0.5")] None [] ] ]
  = [ mkAddress "Sales Laptop #12" "Sales_Laptop_12" "ipmask"
        "10.0.0.5 255.255.255.255" "" ].
Proof. vm_compute. reflexivity. Qed.

Example scenario5_range :
  range_record (mkRegistry ∅ ∅)
    (Elem "address_range" [("name", "r"); ("ip_range", "10.1.1.10 - 10.1.1.20")]
       None [])
  = Some (mkRange "r" "r" "iprange" "10.1.1.10" "10.1.1.20").
Proof. vm_compute. reflexivity. Qed.

Example scenario4_update :
  fg_push (Some (mkClient (fun _ rq =>
                   match rq with
                   | GET _ => inl (mkResponse 200 "" (inl ["web"]))
                   | _ => inl (mkResponse 204 "" (inl []))
                   end)))
    "hosts" [ItemObject (host_item "web" "10.0.0.7 255.255.255.255")] []
  = (ResultsResponse [mkResult "ok" "web" "web" None (Some 204%Z)],
     [ GET "firewall/address";
       PUT "firewall/address" "web"
         [ ("name", JStr "web"); ("comment", JStr ""); ("type", JStr "ipmask");
           ("subnet", JStr "10.0.0.7 255.255.255.255") ] ]).
Proof. vm_compute. reflexivity. Qed.

(** * Further properties *)

(** ** Sanitizer: fixed points *)

Lemma legal_not_space (c : ascii) : legal_char c = true -> PyStr.is_space c = false.
Proof.
  destruct c as [b0 b1 b2 b3 b4 b5 b6 b7].
  destruct b0, b1, b2, b3, b4, b5, b6, b7; vm_compute; congruence.
Qed.

Lemma lstrip_none (p : ascii -> bool) (s : string) :
  PyStr.all_chars (fun c => negb (p c)) s = true -> PyStr.lstrip p s = s.
Proof.
  destruct s as [|c s]; simpl; [reflexivity |].
  intros [Hc _]%andb_prop. apply negb_true_iff in Hc. rewrite Hc. reflexivity.
Qed.

Lemma rstrip_keeps (p : ascii -> bool) (s : string) :
  ends_with p s = false -> PyStr.rstrip p s = s.
Proof.
  unfold ends_with. induction s as [|c s IH]; [reflexivity |].
  intros H. cbn [PyStr.rstrip]. destruct s as [|c' s].
  - simpl in *. rewrite H. reflexivity.
  - rewrite IH by exact H. reflexivity.
Qed.

Lemma ends_with_legal (p : ascii -> bool) (s : string) :
  (forall c, legal_char c = true -> p c = false) ->
  PyStr.all_chars legal_char s = true -> ends_with p s = false.
Proof.
  intros Hp. unfold ends_with. induction s as [|c s IH]; [reflexivity |].
  intros [Hc Hs]%andb_prop. destruct s as [|c' s]; [apply Hp, Hc | apply IH, Hs].
Qed.

Lemma strip_legal (s : string) :
  PyStr.all_chars legal_char s = true -> PyStr.strip s = s.
Proof.
  intros H. unfold PyStr.strip, PyStr.strip_chars.
  rewrite lstrip_none.
  - apply rstrip_keeps, ends_with_legal; [apply legal_not_space | exact H].
  - clear -H. induction s as [|c s IH]; [reflexivity |].
    simpl in *. apply andb_prop in H as [Hc Hs].
    rewrite (legal_not_space c Hc), IH; auto.
Qed.

Lemma map_chars_legal (s : string) :
  PyStr.all_chars legal_char s = true ->
  PyStr.map_chars (fun c => if legal_char c then c else "_"%char) s = s.
Proof.
  induction s as [|c s IH]; [reflexivity |].
  simpl. intros [Hc Hs]%andb_prop. rewrite Hc, IH; auto.
Qed.

Lemma is_underscore_eq (c : ascii) : PyStr.is_underscore c = true -> c = "_"%char.
Proof. apply Ascii.eqb_eq. Qed.

Lemma sub_runs_none (b : bool) (s : string) :
  PyStr.has_double_underscore s = false ->
  (b = true -> PyStr.starts_with_underscore s = false) ->
  PyStr.sub_runs b s = s.
Proof.
  revert b; induction s as [|c s IH]; intros b Hd Hb; [reflexivity |].
  pose proof (no_double_tail _ _ Hd) as Hd'.
  simpl in Hd. apply orb_false_elim in Hd as [Hcc _].
  simpl. destruct (PyStr.is_underscore c) eqn:E.
  - destruct b; [specialize (Hb eq_refl); simpl in Hb; congruence |].
    rewrite (is_underscore_eq c E). f_equal. apply IH; [exact Hd' |].
    intros _. destruct s; simpl in *; [reflexivity | exact Hcc].
  - f_equal. apply IH; [exact Hd' | discriminate].
Qed.

Lemma lstrip_head_keeps (s : string) :
  PyStr.starts_with_underscore s = false -> PyStr.lstrip PyStr.is_underscore s = s.
Proof. destruct s as [|c s]; simpl; [reflexivity | intros ->; reflexivity]. Qed.

Lemma take_all (n : nat) (s : string) :
  (String.length s <= n)%nat -> PyStr.take n s = s.
Proof.
  revert s; induction n as [|n IH]; intros [|c s]; simpl; try reflexivity; try lia.
  intros H. rewrite IH; [reflexivity | lia].
Qed.

Lemma sanitized_fixed (s : string) :
  canonical_name s -> sanitized s max_len_default = s.
Proof.
  intros ((Hne & Hlen & Hlegal) & Hdouble & Hhead & Hlast & Hdot).
  unfold sanitized.
  rewrite (strip_legal s Hlegal), (map_chars_legal s Hlegal).
  rewrite sub_runs_none by (auto || discriminate).
  unfold PyStr.strip_chars.
  rewrite (lstrip_head_keeps s Hhead), (rstrip_keeps _ s Hlast), (rstrip_keeps _ s Hdot).
  apply is_empty_false in Hne. rewrite Hne. apply take_all, Hlen.
Qed.

(** X1: on every input the sanitizer returns a name that is non-empty, has
    at most 79 characters, is made of word characters, hyphens and periods
    only, has no two adjacent underscores and does not begin with an
    underscore. *)
Theorem sanitize_name_always (orig : string) (nm : gmap string string) :
  let s := fst (sanitize_name orig max_len_default nm) in
  valid_name s
  /\ PyStr.has_double_underscore s = false
  /\ PyStr.starts_with_underscore s = false.
Proof.
  cbv zeta. rewrite sanitize_name_fst.
  destruct (sanitized_grammar_core orig) as (H1 & H2 & H3 & H4 & H5).
  repeat split; assumption.
Qed.

(** X2: a name that already meets the whole naming grammar is returned
    unchanged, and the registry is left as it was. *)
Theorem sanitize_name_canonical (s : string) (nm : gmap string string) :
  canonical_name s -> sanitize_name s max_len_default nm = (s, nm).
Proof.
  intros H. unfold sanitize_name. rewrite (sanitized_fixed s H), String.eqb_refl.
  reflexivity.
Qed.

Lemma sanitize_name_canonical_witness :
  sanitize_name "Sales_Laptop-12.v2" max_len_default ∅ = ("Sales_Laptop-12.v2", ∅).
Proof.
  apply sanitize_name_canonical. repeat split; try reflexivity.
  - discriminate.
  - vm_compute. lia.
Defined.

(** X3: sanitizing twice gives the same name as sanitizing once whenever
    the first result does not end with an underscore or a period. *)
Theorem sanitize_name_idempotent_when (orig : string) :
  let s := sanitized orig max_len_default in
  ends_with PyStr.is_underscore s = false ->
  ends_with PyStr.is_period s = false ->
  sanitized s max_len_default = s.
Proof.
  cbv zeta. intros Hlast Hdot. apply sanitized_fixed.
  destruct (sanitized_grammar_core orig) as (H1 & H2 & H3 & H4 & H5).
  repeat split; assumption.
Qed.

Lemma sanitize_name_idempotent_when_witness :
  sanitized (sanitized "DNS (TCP)" max_len_default) max_len_default
  = sanitized "DNS (TCP)" max_len_default.
Proof. apply sanitize_name_idempotent_when; reflexivity. Defined.

Lemma strip_blank (s : string) :
  PyStr.all_chars PyStr.is_space s = true -> PyStr.strip s = "".
Proof.
  intros H. unfold PyStr.strip, PyStr.strip_chars.
  assert (PyStr.lstrip PyStr.is_space s = "") as ->; [| reflexivity].
  induction s as [|c s IH]; [reflexivity |].
  simpl in *. apply andb_prop in H as [-> Hs]. auto.
Qed.

(** X4: an input made of whitespace only, the empty string included, is
    given the placeholder name [obj] and is recorded in the registry under
    that name. *)
Theorem sanitize_name_blank (orig : string) (nm : gmap string string) :
  PyStr.all_chars PyStr.is_space orig = true ->
  fst (sanitize_name orig max_len_default nm) = "obj"
  /\ snd (sanitize_name orig max_len_default nm) = <[orig := "obj"]> nm.
Proof.
  intros H. unfold sanitize_name, sanitized. rewrite (strip_blank orig H).
  cbn [fst snd]. change (PyStr.take max_len_default _) with "obj".
  split; [reflexivity |].
  destruct (String.eqb_spec "obj" orig) as [<- |]; [discriminate | reflexivity].
Qed.

Lemma sanitize_name_blank_witness :
  fst (sanitize_name "   " max_len_default ∅) = "obj"
  /\ snd (sanitize_name "   " max_len_default ∅) = <[ "   " := "obj" ]> ∅.
Proof. apply sanitize_name_blank. reflexivity. Defined.

(** ** Name registry: the recorded mappings *)

Lemma registry_invariant (P : Registry -> Prop) :
  P (mkRegistry ∅ ∅) ->
  (forall reg el, P reg -> P (register_name reg el)) ->
  forall root, P (build_registry root).
Proof.
  intros Hinit Hstep root. unfold build_registry.
  generalize (mkRegistry ∅ ∅) Hinit. generalize xml_object_tags.
  induction l as [|t tags IH]; intros reg Hreg; simpl; [exact Hreg |].
  apply IH. generalize reg Hreg. generalize (iter root t).
  induction l as [|el l IHl]; intros reg' Hreg'; simpl; [exact Hreg' |].
  apply IHl, Hstep, Hreg'.
Qed.

Lemma registry_changed_only (root : Element) (n s : string) :
  name_map (build_registry root) !! n = Some s -> s <> n.
Proof.
  revert n s. apply (registry_invariant
    (fun reg => forall n s, name_map reg !! n = Some s -> s <> n)).
  - intros n s H. cbn [name_map] in H. rewrite lookup_empty in H. discriminate.
  - intros reg el IH n s. unfold register_name.
    destruct (PyStr.is_empty _); [apply IH |].
    unfold sanitize_name. cbn [name_map].
    set (d := PyStr.strip (attr_get el "name" "")).
    destruct (String.eqb_spec (sanitized d max_len_default) d) as [| Hne];
      [apply IH |].
    destruct (decide (n = d)) as [-> | Hnd].
    + rewrite lookup_insert_eq. intros [= <-]. exact Hne.
    + rewrite lookup_insert_ne by congruence. apply IH.
Qed.

(** X5: the name map an extraction returns holds exactly the declared
    names that sanitizing changes, each with its sanitized form: a name
    that is already canonical, or that no element with a name-bearing tag
    declares, has no entry. *)
Theorem name_map_exact
    (ipv4_network : string -> option (string * string))
    (root : Element) (n s : string) :
  out_name_map (extract_objects ipv4_network root) !! n = Some s
  <-> (exists t el, In t xml_object_tags /\ In el (iter root t)
                    /\ declared_name el = n /\ n <> "")
      /\ s = sanitized n max_len_default
      /\ s <> n.
Proof.
  cbn [extract_objects out_name_map].
  pose proof (build_registry_ok root n) as [Hin Hout].
  pose proof (build_registry_names root n) as Hnames.
  unfold mapped_name in Hin. split.
  - intros Hs. destruct (decide (n ∈ xml_names (build_registry root))) as [Hn | Hn].
    + split; [apply Hnames, Hn |]. split.
      * specialize (Hin Hn). rewrite Hs in Hin. exact Hin.
      * exact (registry_changed_only root n s Hs).
    + rewrite (Hout Hn) in Hs. discriminate.
  - intros (Hdecl & -> & Hne). apply Hnames in Hdecl. specialize (Hin Hdecl).
    destruct (name_map (build_registry root) !! n) as [s' |]; congruence.
Qed.

Lemma name_map_exact_witness :
  out_name_map (extract_objects (fun _ => None) scenario3_doc) !! "Web Group"
  = Some "Web_Group".
Proof.
  apply name_map_exact. split; [| split; [reflexivity | discriminate]].
  exists "group", scenario3_group.
  split; [vm_compute; tauto |]. split; [vm_compute; tauto |].
  split; [reflexivity | discriminate].
Defined.

(** ** De-duplication: further facts *)

Lemma dedup_from_NoDup (seen : gset string) (l : list string) :
  NoDup l -> (forall x, x ∈ l -> x ∉ seen) -> dedup_from seen l = l.
Proof.
  revert seen; induction l as [|m l IH]; intros seen Hnd Hseen; [reflexivity |].
  apply NoDup_cons in Hnd as [Hm Hnd]. simpl.
  destruct (decide (m ∈ seen)) as [Hin | _].
  - exfalso. apply (Hseen m); [left | exact Hin].
  - f_equal. apply IH; [exact Hnd |].
    intros x Hx. specialize (Hseen x). set_solver.
Qed.

Lemma dedup_from_length (seen : gset string) (l : list string) :
  (length (dedup_from seen l) <= length l)%nat.
Proof.
  revert seen; induction l as [|m l IH]; intros seen; simpl; [lia |].
  destruct (decide (m ∈ seen)); simpl.
  - specialize (IH seen). lia.
  - specialize (IH ({[ m ]} ∪ seen)). lia.
Qed.

(** X6: de-duplicating a list without repetition changes nothing, so
    de-duplicating twice is de-duplicating once; the result is never
    longer than the input. *)
Theorem dedup_idempotent (l : list string) :
  (NoDup l -> dedup l = l)
  /\ dedup (dedup l) = dedup l
  /\ (length (dedup l) <= length l)%nat.
Proof.
  assert (forall l', NoDup l' -> dedup l' = l') as Hid.
  { intros l' H. apply dedup_from_NoDup; [exact H | set_solver]. }
  split; [apply Hid |]. split; [apply Hid, NoDup_dedup_from |].
  apply dedup_from_length.
Qed.

Lemma dedup_idempotent_witness : dedup ["A"; "B"; "C"] = ["A"; "B"; "C"].
Proof.
  destruct (dedup_idempotent ["A"; "B"; "C"]) as [Hid _].
  apply Hid. compute_done.
Defined.

(** ** Groups: every reference is accounted for *)

Lemma In_dedup (l : list string) (x : string) : In x (dedup l) <-> In x l.
Proof.
  rewrite <- !list_elem_of_In. unfold dedup.
  rewrite elem_of_dedup_from. set_solver.
Qed.

Lemma In_omap {A B} (f : A -> option B) (l : list A) (y : B) :
  In y (omap f l) <-> exists x, In x l /\ f x = Some y.
Proof.
  rewrite <- list_elem_of_In, list_elem_of_omap.
  split; intros (x & Hx & Hf); exists x; split; auto; apply list_elem_of_In, Hx.
Qed.

(** X7: in an emitted group record no reference is lost and none is
    invented: every reference of the element either resolves to a name
    among the members or is listed in skipped_refs; every member is the
    resolution of some reference; every skipped reference is a reference
    that does not resolve; and no member is listed twice. *)
Theorem group_refs_accounted (reg : Registry) (child_tag : string)
    (el : Element) (g : GroupRecord) :
  group_record reg child_tag el = Some g ->
  (forall r, In r (group_refs child_tag el) ->
     (exists m, resolve reg r = Some m /\ In m (group_member g))
     \/ (resolve reg r = None /\ In r (group_skipped_refs g)))
  /\ (forall m, In m (group_member g) ->
        exists r, In r (group_refs child_tag el) /\ resolve reg r = Some m)
  /\ (forall r, In r (group_skipped_refs g) ->
        In r (group_refs child_tag el) /\ resolve reg r = None)
  /\ NoDup (group_member g).
Proof.
  destruct (group_record_cases reg child_tag el) as [[_ ->] | [_ ->]];
    [discriminate |].
  intros [= <-]. cbn [group_member group_skipped_refs].
  split; [| split; [| split]].
  - intros r Hr. destruct (resolve reg r) as [m |] eqn:E.
    + left. exists m. split; [reflexivity |].
      apply In_dedup, In_omap. eauto.
    + right. split; [reflexivity |].
      apply filter_In. split; [exact Hr |]. unfold unresolved. rewrite E. reflexivity.
  - intros m Hm. apply In_dedup, In_omap in Hm. exact Hm.
  - intros r Hr. apply filter_In in Hr as [Hr Hu]. split; [exact Hr |].
    unfold unresolved in Hu. destruct (resolve reg r); [discriminate | reflexivity].
  - apply NoDup_dedup_from.
Qed.

Lemma group_refs_accounted_witness :
  exists g, group_record (build_registry scenario3_doc) "ne_list" scenario3_group = Some g
            /\ NoDup (group_member g)
            /\ forall r, In r (group_skipped_refs g) ->
                         resolve (build_registry scenario3_doc) r = None.
Proof.
  eexists. split; [vm_compute; reflexivity |].
  destruct (group_refs_accounted (build_registry scenario3_doc) "ne_list"
              scenario3_group _ eq_refl) as (_ & _ & Hskip & Hnd).
  split; [exact Hnd |]. intros r Hr. apply (Hskip r Hr).
Defined.

(** ** Groups: member names *)

Lemma builtin_valid (k v : string) : BUILTIN_MAP !! k = Some v -> valid_name v.
Proof.
  intros H. unfold BUILTIN_MAP in H. apply elem_of_list_to_map_2 in H.
  repeat (apply elem_of_cons in H as [H | H];
          [injection H as -> ->;
           (split; [discriminate | split; [vm_compute; lia | reflexivity]]) |]).
  inversion H.
Qed.

Lemma resolve_valid (root : Element) (ref m : string) :
  resolve (build_registry root) ref = Some m -> valid_name m.
Proof.
  destruct (decide (ref ∈ xml_names (build_registry root))) as [Hin | Hout].
  - rewrite (resolve_local _ _ (build_registry_ok root) Hin).
    intros [= <-]. apply sanitized_valid.
  - rewrite (resolve_foreign _ _ Hout). apply builtin_valid.
Qed.

(** X8: every member name of every address group and service group of an
    extraction is non-empty, at most 79 characters long and made of word
    characters, hyphens and periods: it is a sanitized local name or a
    target name of the built-in table. *)
Theorem group_members_valid
    (ipv4_network : string -> option (string * string))
    (root : Element) (g : GroupRecord) (m : string) :
  In g (net_groups (extract_objects ipv4_network root)
        ++ service_groups (extract_objects ipv4_network root))%list ->
  In m (group_member g) ->
  valid_name m.
Proof.
  intros Hg Hm. cbn [extract_objects net_groups service_groups] in Hg.
  assert (exists child_tag el,
             group_record (build_registry root) child_tag el = Some g)
    as (child_tag & el & Hrec).
  { apply in_app_or in Hg as [Hg | Hg]; apply collect_In in Hg as (el & _ & Hel);
      eauto. }
  destruct (group_record_cases (build_registry root) child_tag el)
    as [[_ Hnone] | [_ Hsome]]; rewrite Hrec in *; [discriminate |].
  injection Hsome as ->. cbn [group_member] in Hm.
  apply In_dedup, In_omap in Hm as (r & _ & Hr).
  exact (resolve_valid root r m Hr).
Qed.

Lemma group_members_valid_witness : valid_name "DNS".
Proof.
  apply (group_members_valid (fun _ => None) scenario3_doc
           (mkGroup "Web Group" "Web_Group" ["WebSrv"; "DNS"] ["GhostObj"]) "DNS").
  - vm_compute. left. reflexivity.
  - right. left. reflexivity.
Defined.

(** ** Address ranges: the split at the first hyphen *)

Lemma split_once_spec (c : ascii) (s a b : string) :
  PyStr.split_once c s = Some (a, b) ->
  s = a ++ String c b /\ PyStr.contains_char c a = false.
Proof.
  revert a; induction s as [|d s IH]; intros a; simpl; [discriminate |].
  destruct (Ascii.eqb_spec c d) as [<- | Hne].
  - intros [= <- <-]. split; reflexivity.
  - destruct (PyStr.split_once c s) as [[a' b'] |]; [| discriminate].
    intros [= <- <-]. destruct (IH a' eq_refl) as [-> Ha].
    split; [reflexivity |]. simpl. rewrite Ha.
    destruct (Ascii.eqb_spec c d); [contradiction | reflexivity].
Qed.

Lemma split_once_none (c : ascii) (s : string) :
  PyStr.split_once c s = None <-> PyStr.contains_char c s = false.
Proof.
  induction s as [|d s IH]; simpl; [tauto |].
  destruct (Ascii.eqb c d); simpl; [split; discriminate |].
  destruct (PyStr.split_once c s) as [[a b] |].
  - split; [discriminate |]. intros H. apply IH in H. discriminate.
  - split; [intros _; apply IH; reflexivity | reflexivity].
Qed.

(** X9: an address-range element yields a record exactly when its trimmed
    [ip_range] contains a hyphen; the range is cut at the first hyphen, so
    start-ip is the trimmed text before it, which contains no hyphen, and
    end-ip is the trimmed rest, later hyphens included. *)
Theorem range_record_split (reg : Registry) (el : Element) :
  let r := PyStr.strip (attr_get el "ip_range" "") in
  (range_record reg el = None <-> PyStr.contains_char "-" r = false)
  /\ forall rec, range_record reg el = Some rec ->
       exists a b, r = a ++ "-" ++ b
                   /\ PyStr.contains_char "-" a = false
                   /\ range_start_ip rec = PyStr.strip a
                   /\ range_end_ip rec = PyStr.strip b
                   /\ range_type rec = "iprange".
Proof.
  cbv zeta. unfold range_record. cbv zeta.
  destruct (PyStr.split_once "-" (PyStr.strip (attr_get el "ip_range" "")))
    as [[a b] |] eqn:E.
  - split.
    + split; [discriminate |]. intros H. apply split_once_none in H. congruence.
    + intros rec [= <-]. apply split_once_spec in E as [E Ha].
      exists a, b. repeat split; auto.
  - split; [| discriminate].
    split; [intros _; apply split_once_none, E | reflexivity].
Qed.

Lemma range_record_split_witness :
  exists rec,
    range_record (mkRegistry ∅ ∅)
      (Elem "address_range" [("name", "r"); ("ip_range", "10.1.1.10 - 10.1.1.20")]
         None []) = Some rec
    /\ exists a b, range_start_ip rec = PyStr.strip a
                   /\ range_end_ip rec = PyStr.strip b.
Proof.
  eexists. split; [vm_compute; reflexivity |].
  destruct (range_record_split (mkRegistry ∅ ∅)
              (Elem "address_range"
                 [("name", "r"); ("ip_range", "10.1.1.10 - 10.1.1.20")] None []))
    as [_ H].
  destruct (H _ eq_refl) as (a & b & _ & _ & Hs & He & _).
  exists a, b. split; assumption.
Defined.

(** ** Tree flattener: the shape of a row *)

Lemma str_length_app (a b : string) :
  String.length (a ++ b) = (String.length a + String.length b)%nat.
Proof.
  induction a as [|c a IH]; [reflexivity |].
  rewrite str_app_cons. simpl. rewrite IH. reflexivity.
Qed.

Lemma length_take_min (n : nat) (s : string) :
  String.length (PyStr.take n s) = Nat.min n (String.length s).
Proof.
  revert s; induction n as [|n IH]; intros [|c s]; simpl; try reflexivity.
  rewrite IH. reflexivity.
Qed.

Lemma truncate_value_cases (v : string) :
  ((String.length v <= 500)%nat -> truncate_value v = v)
  /\ ((500 < String.length v)%nat ->
      truncate_value v = PyStr.take 200 v ++ "...[truncated]"
      /\ String.length (truncate_value v) = 214%nat).
Proof.
  unfold truncate_value.
  destruct (500 <? String.length v)%nat eqn:E.
  - apply Nat.ltb_lt in E.
    assert (String.length (PyStr.take 200 v ++ "...[truncated]") = 214%nat) as Hlen.
    { rewrite str_length_app, length_take_min.
      rewrite Nat.min_l by lia. reflexivity. }
    split; [lia | auto].
  - apply Nat.ltb_ge in E. split; [reflexivity | lia].
Qed.

(** The pass over the element's own attributes. *)
Lemma attrs_fold_other (prefix k : string) (attrs : Dict.t string)
    (row : Dict.t string) :
  ~ In k (Dict.keys attrs) ->
  Dict.get (prefix ++ k)
    (fold_left (fun row kv =>
                  Dict.set (with_prefix prefix (fst kv)) (truncate_value (snd kv)) row)
       attrs row)
  = Dict.get (prefix ++ k) row.
Proof.
  revert row; induction attrs as [|[k' v'] attrs IH]; intros row Hk; simpl;
    [reflexivity |].
  rewrite IH by (intros H; apply Hk; right; exact H).
  rewrite with_prefix_app. apply dict_get_set_ne.
  intros Heq. apply str_app_inv_head in Heq. apply Hk. left. auto.
Qed.

Lemma attrs_fold_get (prefix k v : string) (attrs : Dict.t string)
    (row : Dict.t string) :
  List.NoDup (Dict.keys attrs) ->
  Dict.get k attrs = Some v ->
  Dict.get (prefix ++ k)
    (fold_left (fun row kv =>
                  Dict.set (with_prefix prefix (fst kv)) (truncate_value (snd kv)) row)
       attrs row)
  = Some (truncate_value v).
Proof.
  revert row; induction attrs as [|[k' v'] attrs IH]; intros row Hnd Hget;
    [discriminate |].
  simpl in Hnd, Hget. apply NoDup_cons_iff in Hnd as [Hfresh Hnd]. cbn [fold_left].
  destruct (String.eqb_spec k k') as [<- | Hne].
  - injection Hget as ->. rewrite attrs_fold_other by exact Hfresh.
    cbn [fst snd]. rewrite with_prefix_app. apply dict_get_set_eq.
  - apply IH; assumption.
Qed.

(** The groups and the children that occur once leave a column of the
    element itself alone, when its name has no period. *)
Lemma children_passes_other (prefix k : string) (cs rest : list Element)
    (entries : Dict.t (list Element)) (row : Dict.t string) :
  no_period k = true ->
  Dict.get (prefix ++ k)
    (flatten_singles flatten_element prefix cs rest
       (fold_left (flatten_group prefix) entries row))
  = Dict.get (prefix ++ k) row.
Proof.
  intros Hk.
  assert (Dict.get (prefix ++ k) (fold_left (flatten_group prefix) entries row)
          = Dict.get (prefix ++ k) row) as <-.
  { revert row; induction entries as [|entry entries IH]; intros row; simpl;
      [reflexivity |].
    rewrite IH. apply (writes_under_group prefix row entry).
    apply not_under_grandchild, Hk. }
  generalize (fold_left (flatten_group prefix) entries row). clear row.
  induction rest as [|c rest IH]; intros row; simpl; [reflexivity |].
  destruct (1 <? count_tag (tag c) cs)%nat; [apply IH |].
  rewrite IH, with_prefix_app.
  apply (writes_under_update (prefix ++ (tag c ++ "."))).
  - intros col Hcol.
    destruct (flatten_under c (prefix ++ (tag c ++ "."))) as [_ Hu].
    destruct (Hu col Hcol) as [[] | H]. exact H.
  - apply not_under_grandchild, Hk.
Qed.

(** X10: an attribute of the element itself, of a name without a period,
    is the column of that name under the prefix (unless the name is
    [_text] and the element has text): its value as it is when at most
    500 characters long, and otherwise its first 200 characters followed
    by the marker [...[truncated]], 214 characters in all. *)
Theorem own_attribute_column (el : Element) (prefix k v : string) :
  List.NoDup (Dict.keys (attrib el)) ->
  Dict.get k (attrib el) = Some v ->
  no_period k = true ->
  (k = "_text" -> stripped_text (text el) = None) ->
  Dict.get (prefix ++ k) (flatten_element el prefix) = Some (truncate_value v)
  /\ ((String.length v <= 500)%nat -> truncate_value v = v)
  /\ ((500 < String.length v)%nat ->
      truncate_value v = PyStr.take 200 v ++ "...[truncated]"
      /\ String.length (truncate_value v) = 214%nat).
Proof.
  intros Hnd Hget Hk Htext. split; [| apply truncate_value_cases].
  destruct el as [t attrs txt cs]. cbn [attrib text] in *. cbn [flatten_element].
  rewrite children_passes_other by exact Hk.
  destruct (stripped_text txt) as [s |] eqn:E.
  - rewrite with_prefix_app, dict_get_set_ne; [apply attrs_fold_get; assumption |].
    intros Heq. apply str_app_inv_head in Heq. specialize (Htext Heq). discriminate.
  - apply attrs_fold_get; assumption.
Qed.

Lemma own_attribute_column_witness :
  Dict.get "host.name" (flatten_element (Elem "host" [("name", "WebSrv")] None []) "host.")
  = Some "WebSrv".
Proof.
  destruct (own_attribute_column (Elem "host" [("name", "WebSrv")] None []) "host."
              "name" "WebSrv") as (Hcol & Hshort & _).
  - vm_compute. repeat constructor. intros [].
  - reflexivity.
  - reflexivity.
  - discriminate.
  - rewrite Hshort in Hcol by (vm_compute; lia). exact Hcol.
Defined.

(** X11: every column of a flattened element starts with the prefix the
    element was flattened under; the columns of a nested child therefore
    all begin with the dotted path that leads to it. *)
Theorem flatten_columns_prefixed (el : Element) (prefix col : string) :
  In col (Dict.keys (flatten_element el prefix)) ->
  exists rest, col = prefix ++ rest.
Proof.
  intros H. destruct (flatten_under el prefix) as [_ Hk].
  destruct (Hk col H) as [[] | Hu]. exact Hu.
Qed.

Lemma flatten_columns_prefixed_witness : exists rest, "host.name" = "host." ++ rest.
Proof.
  apply (flatten_columns_prefixed (Elem "host" [("name", "WebSrv")] None []) "host.").
  vm_compute. left. reflexivity.
Defined.

Lemma nodup_fold {A} (f : Dict.t string -> A -> Dict.t string)
    (l : list A) (row : Dict.t string) :
  (forall d a, List.NoDup (Dict.keys d) -> List.NoDup (Dict.keys (f d a))) ->
  List.NoDup (Dict.keys row) ->
  List.NoDup (Dict.keys (fold_left f l row)).
Proof.
  intros Hf. revert row; induction l as [|x l IH]; intros row H; simpl; [exact H |].
  apply IH, Hf, H.
Qed.

Lemma nodup_update (d other : Dict.t string) :
  List.NoDup (Dict.keys d) -> List.NoDup (Dict.keys (Dict.update d other)).
Proof. apply nodup_fold. intros d' kv. apply dict_set_NoDup. Qed.

Lemma nodup_joined (cp : string) (cs : list Element) (row : Dict.t string) :
  List.NoDup (Dict.keys row) -> List.NoDup (Dict.keys (joined_columns cp cs row)).
Proof. apply nodup_fold. intros d k. apply dict_set_NoDup. Qed.

Lemma nodup_group (prefix : string) (row : Dict.t string)
    (entry : string * list Element) :
  List.NoDup (Dict.keys row) ->
  List.NoDup (Dict.keys (flatten_group prefix row entry)).
Proof.
  destruct entry as [t cs]. intros H. unfold flatten_group.
  apply nodup_fold; [intros d ge; apply nodup_joined |].
  destruct (child_keys cs); [| apply nodup_joined, H].
  destruct (text_values cs); [exact H | apply dict_set_NoDup, H].
Qed.

Lemma nodup_singles (rec : Element -> string -> Dict.t string)
    (prefix : string) (cs rest : list Element) (row : Dict.t string) :
  List.NoDup (Dict.keys row) ->
  List.NoDup (Dict.keys (flatten_singles rec prefix cs rest row)).
Proof.
  revert row; induction rest as [|c rest IH]; intros row H; simpl; [exact H |].
  destruct (1 <? count_tag (tag c) cs)%nat; apply IH; [exact H |].
  apply nodup_update, H.
Qed.

Lemma flatten_nodup (el : Element) (prefix : string) :
  List.NoDup (Dict.keys (flatten_element el prefix)).
Proof.
  destruct el as [t attrs txt cs]. cbn [flatten_element].
  apply nodup_singles.
  apply nodup_fold; [intros d entry; apply nodup_group |].
  assert (List.NoDup
            (Dict.keys
               (fold_left
                  (fun row kv =>
                     Dict.set (with_prefix prefix (fst kv))
                       (truncate_value (snd kv)) row) attrs [])))
    as Hattrs.
  { apply nodup_fold; [intros d kv; apply dict_set_NoDup | constructor]. }
  destruct (stripped_text txt); [apply dict_set_NoDup, Hattrs | exact Hattrs].
Qed.

(** X12: the text of an element is written after its attributes, under
    the column [_text]: when the element has non-blank text, that column
    holds the trimmed text, also when the element carries an attribute
    named [_text], whose value the later write replaces. *)
Theorem text_column_replaces (el : Element) (prefix t : string) :
  stripped_text (text el) = Some t ->
  Dict.get (prefix ++ "_text") (flatten_element el prefix) = Some t.
Proof.
  intros Htext. destruct el as [tg attrs txt cs]. cbn [text] in Htext.
  cbn [flatten_element].
  rewrite children_passes_other by reflexivity.
  rewrite Htext, with_prefix_app. apply dict_get_set_eq.
Qed.

Lemma text_column_replaces_witness :
  Dict.get "_text"
    (flatten_element (Elem "note" [("_text", "from attribute"); ("id", "7")]
                        (Some " from text ") []) "")
  = Some "from text".
Proof.
  exact (text_column_replaces
           (Elem "note" [("_text", "from attribute"); ("id", "7")]
              (Some " from text ") []) "" "from text" eq_refl).
Defined.

(** ** Tree flattener: children that occur once *)

Lemma fold_set_other {A} (key : A -> string) (val : A -> string)
    (l : list A) (row : Dict.t string) (col : string) :
  (forall x, In x l -> key x <> col) ->
  Dict.get col (fold_left (fun row x => Dict.set (key x) (val x) row) l row)
  = Dict.get col row.
Proof.
  revert row; induction l as [|x l IH]; intros row H; simpl; [reflexivity |].
  rewrite IH by (intros y Hy; apply H; right; exact Hy).
  apply dict_get_set_ne. intros ->. apply (H x); [left |]; reflexivity.
Qed.

(** [d.update(other)] brings every entry of [other] into [d]. *)
Lemma dict_get_update_hit (d other : Dict.t string) (col v : string) :
  List.NoDup (Dict.keys other) ->
  Dict.get col other = Some v ->
  Dict.get col (Dict.update d other) = Some v.
Proof.
  unfold Dict.update, Dict.keys.
  revert d; induction other as [|[k w] other IH]; intros d Hnd Hget;
    [discriminate |].
  simpl in Hnd, Hget. apply NoDup_cons_iff in Hnd as [Hk Hnd]. cbn [fold_left fst snd].
  destruct (String.eqb_spec col k) as [-> | Hne].
  - injection Hget as ->.
    rewrite (fold_set_other fst snd); [apply dict_get_set_eq |].
    intros x Hx Heq. apply Hk. rewrite <- Heq. apply in_map, Hx.
  - apply IH; assumption.
Qed.

Lemma flatten_singles_app (rec : Element -> string -> Dict.t string)
    (prefix : string) (cs l1 l2 : list Element) (row : Dict.t string) :
  flatten_singles rec prefix cs (l1 ++ l2)%list row
  = flatten_singles rec prefix cs l2 (flatten_singles rec prefix cs l1 row).
Proof.
  revert row; induction l1 as [|c l1 IH]; intros row; simpl; [reflexivity |].
  destruct (1 <? count_tag (tag c) cs)%nat; apply IH.
Qed.

Lemma flatten_singles_cons (rec : Element -> string -> Dict.t string)
    (prefix : string) (cs rest : list Element) (c : Element) (row : Dict.t string) :
  flatten_singles rec prefix cs (c :: rest) row
  = if (1 <? count_tag (tag c) cs)%nat
    then flatten_singles rec prefix cs rest row
    else flatten_singles rec prefix cs rest
           (Dict.update row (rec c (with_prefix prefix (tag c ++ ".")))).
Proof. reflexivity. Qed.

(** Children with other period-free tags leave the column alone. *)
Lemma singles_other (prefix t x : string) (cs rest : list Element)
    (row : Dict.t string) :
  no_period t = true ->
  (forall c, In c rest -> tag c <> t /\ no_period (tag c) = true) ->
  Dict.get ((prefix ++ (t ++ ".")) ++ x)
    (flatten_singles flatten_element prefix cs rest row)
  = Dict.get ((prefix ++ (t ++ ".")) ++ x) row.
Proof.
  intros Ht. revert row; induction rest as [|c rest IH]; intros row Hrest;
    simpl; [reflexivity |].
  destruct (Hrest c) as [Hne Hnp]; [left; reflexivity |].
  assert (forall c', In c' rest -> tag c' <> t /\ no_period (tag c') = true) as Hrest'
    by (intros c' H; apply Hrest; right; exact H).
  destruct (1 <? count_tag (tag c) cs)%nat; rewrite IH by exact Hrest';
    [reflexivity |].
  rewrite with_prefix_app.
  apply (writes_under_update (prefix ++ (tag c ++ "."))).
  - intros col Hcol.
    destruct (flatten_under c (prefix ++ (tag c ++ "."))) as [_ Hk].
    destruct (Hk col Hcol) as [[] | H]. exact H.
  - apply not_under_sibling; auto.
Qed.

Lemma count_tag_app (t : string) (l1 l2 : list Element) :
  count_tag t (l1 ++ l2)%list = (count_tag t l1 + count_tag t l2)%nat.
Proof. unfold count_tag. rewrite List.filter_app, length_app. reflexivity. Qed.

Lemma count_tag_zero (t : string) (l : list Element) :
  count_tag t l = 0%nat -> forall c, In c l -> tag c <> t.
Proof.
  unfold count_tag. intros H c Hc Htag.
  assert (In c (List.filter (fun c => String.eqb (tag c) t) l)) as Hin
    by (apply filter_In; split; [exact Hc | apply String.eqb_eq, Htag]).
  destruct (List.filter _ l); [destruct Hin | discriminate].
Qed.

(** X13: when the child tags of an element contain no period, the row of
    a child whose tag occurs once, flattened under that tag, is part of
    the element's row: each of its columns is there with the same value. *)
Theorem single_child_columns (el c : Element) (prefix col v : string) :
  In c (children el) ->
  count_tag (tag c) (children el) = 1%nat ->
  (forall c', In c' (children el) -> no_period (tag c') = true) ->
  Dict.get col (flatten_element c (prefix ++ tag c ++ ".")) = Some v ->
  Dict.get col (flatten_element el prefix) = Some v.
Proof.
  destruct el as [tg attrs txt kids]. cbn [children]. intros Hc Hcount Hnp Hget.
  assert (In col (Dict.keys (flatten_element c (prefix ++ tag c ++ ".")))) as Hkey
    by (apply dict_get_keys; rewrite Hget; discriminate).
  destruct (flatten_under c (prefix ++ tag c ++ ".")) as [_ Hk].
  destruct (Hk col Hkey) as [[] | [x ->]].
  destruct (in_split c kids Hc) as (pre & post & Hkids).
  assert (count_tag (tag c) pre = 0%nat /\ count_tag (tag c) post = 0%nat)
    as [Hpre Hpost].
  { rewrite Hkids, count_tag_app in Hcount.
    change (c :: post) with ([c] ++ post)%list in Hcount.
    rewrite count_tag_app in Hcount. unfold count_tag at 2 in Hcount.
    simpl in Hcount. rewrite String.eqb_refl in Hcount. simpl in Hcount. lia. }
  cbn [flatten_element].
  match goal with |- context [flatten_singles _ _ _ kids ?r] => generalize r end.
  intros row.
  assert (forall rest, rest = (pre ++ c :: post)%list ->
            Dict.get ((prefix ++ tag c ++ ".") ++ x)
              (flatten_singles flatten_element prefix kids rest row) = Some v)
    as Hgen; [| apply Hgen, Hkids].
  intros rest ->.
  rewrite flatten_singles_app, flatten_singles_cons, Hcount.
  cbn [Nat.ltb Nat.leb].
  rewrite singles_other.
  - rewrite with_prefix_app. apply dict_get_update_hit; [apply flatten_nodup | exact Hget].
  - apply Hnp, Hc.
  - intros c' Hc'. split; [apply (count_tag_zero _ post Hpost), Hc' |].
    apply Hnp. rewrite Hkids. apply in_or_app. right. right. exact Hc'.
Qed.

Lemma single_child_columns_witness :
  Dict.get "host.mvia_address.address"
    (flatten_element
       (Elem "host" [("name", "WebSrv")] None
          [ Elem "mvia_address" [("address", "10.0.0.1")] None [] ]) "host.")
  = Some "10.0.0.1".
Proof.
  apply (single_child_columns
           (Elem "host" [("name", "WebSrv")] None
              [ Elem "mvia_address" [("address", "10.0.0.1")] None [] ])
           (Elem "mvia_address" [("address", "10.0.0.1")] None [])).
  - left. reflexivity.
  - reflexivity.
  - intros c' [<- | []]. reflexivity.
  - reflexivity.
Defined.

(** ** Document tabulator *)

Lemma by_tag_fold (l done : list Element) (g : Dict.t (list Element)) :
  let grp := fun t (l : list Element) =>
    match List.filter (fun c => String.eqb (tag c) t) l with
    | [] => None
    | x :: r => Some (x :: r)
    end in
  (forall t, Dict.get t g = grp t done) ->
  List.NoDup (Dict.keys g) ->
  (forall t, Dict.get t (fold_left (fun d el => Dict.append_to (tag el) el d) l g)
             = grp t (done ++ l)%list)
  /\ List.NoDup (Dict.keys (fold_left (fun d el => Dict.append_to (tag el) el d) l g)).
Proof.
  cbv zeta. revert done g; induction l as [|c l IH]; intros done g Hget Hnd.
  - simpl. rewrite app_nil_r. auto.
  - cbn [fold_left].
    replace (done ++ c :: l)%list with ((done ++ [c]) ++ l)%list
      by (rewrite <- app_assoc; reflexivity).
    apply IH; [| apply dict_keys_append_to, Hnd].
    intros t. rewrite List.filter_app. cbn [List.filter].
    rewrite dict_get_append_to, (String.eqb_sym t).
    destruct (String.eqb_spec (tag c) t) as [<- | Hne].
    + rewrite Hget. destruct (List.filter _ done) as [|y r]; reflexivity.
    + rewrite app_nil_r. apply Hget.
Qed.

Lemma by_tag_spec (l : list Element) (t : string) :
  entries_of t (by_tag l) = List.filter (fun c => String.eqb (tag c) t) l
  /\ (In t (Dict.keys (by_tag l)) <-> exists c, In c l /\ tag c = t)
  /\ (has_key t (by_tag l) = true <-> exists c, In c l /\ tag c = t)
  /\ List.NoDup (Dict.keys (by_tag l)).
Proof.
  destruct (by_tag_fold l [] []) as [Hget Hnd]; [reflexivity | constructor |].
  simpl app in Hget. fold (by_tag l) in Hget, Hnd.
  assert (Dict.get t (by_tag l) <> None <-> exists c, In c l /\ tag c = t) as Hex.
  { rewrite Hget. split.
    - destruct (List.filter _ l) as [|x r] eqn:E; [congruence |]. intros _.
      assert (In x (List.filter (fun c => String.eqb (tag c) t) l)) as Hx
        by (rewrite E; left; reflexivity).
      apply filter_In in Hx as [Hx Ht]. exists x. split; [exact Hx |].
      apply String.eqb_eq, Ht.
    - intros (c & Hc & Ht).
      assert (In c (List.filter (fun c => String.eqb (tag c) t) l)) as Hx
        by (apply filter_In; split; [exact Hc | apply String.eqb_eq, Ht]).
      destruct (List.filter _ l); [destruct Hx | discriminate]. }
  split; [| split; [| split]].
  - unfold entries_of. rewrite Hget. destruct (List.filter _ l); reflexivity.
  - rewrite <- dict_get_keys. exact Hex.
  - rewrite <- Hex. unfold has_key. destruct (Dict.get t (by_tag l)); split;
      congruence.
  - exact Hnd.
Qed.

Lemma sorted_keys_spec {V} (d : Dict.t V) :
  Sorted String.le (sorted_keys d)
  /\ (List.NoDup (Dict.keys d) -> List.NoDup (sorted_keys d))
  /\ forall t, In t (sorted_keys d) <-> In t (Dict.keys d).
Proof.
  unfold sorted_keys.
  pose proof (merge_sort_Permutation String.le (Dict.keys d)) as Hperm.
  split; [apply Sorted_merge_sort, _ |]. split.
  - intros H. eapply Permutation_NoDup; [symmetry; exact Hperm | exact H].
  - intros t. split; apply Permutation_in; [exact Hperm | symmetry; exact Hperm].
Qed.

Lemma dict_In_set {V} (k : string) (v : V) (d : Dict.t V) (k' : string) (v' : V) :
  In (k', v') (Dict.set k v d) -> (k' = k /\ v' = v) \/ In (k', v') d.
Proof.
  induction d as [|[k0 v0] d IH]; simpl.
  - intros [[= <- <-] | []]. auto.
  - destruct (String.eqb_spec k k0) as [<- |]; simpl.
    + intros [[= <- <-] | H]; auto.
    + intros [H | H]; [auto |]. destruct (IH H) as [H' | H']; auto.
Qed.

Lemma dict_fold_set_other {V} (val : string -> V) (l : list string)
    (d : Dict.t V) (t : string) :
  ~ In t l ->
  Dict.get t (fold_left (fun d k => Dict.set k (val k) d) l d) = Dict.get t d.
Proof.
  revert d; induction l as [|k l IH]; intros d Ht; simpl; [reflexivity |].
  rewrite IH by (intros H; apply Ht; right; exact H).
  apply dict_get_set_ne. intros ->. apply Ht. left. reflexivity.
Qed.

Lemma dict_fold_set_get {V} (val : string -> V) (l : list string)
    (d : Dict.t V) (t : string) :
  In t l ->
  Dict.get t (fold_left (fun d k => Dict.set k (val k) d) l d) = Some (val t).
Proof.
  revert d; induction l as [|k l IH]; intros d Ht; simpl; [destruct Ht |].
  destruct (in_dec string_dec t l) as [Hin | Hout]; [apply IH, Hin |].
  destruct Ht as [-> | Ht]; [| contradiction].
  rewrite dict_fold_set_other by exact Hout. apply dict_get_set_eq.
Qed.

Lemma dict_fold_set_all {V} (P : V -> Prop) (val : string -> V)
    (l : list string) (d : Dict.t V) :
  (forall k, P (val k)) ->
  (forall k v, In (k, v) d -> P v) ->
  forall k v, In (k, v) (fold_left (fun d k => Dict.set k (val k) d) l d) -> P v.
Proof.
  intros Hval. revert d; induction l as [|k0 l IH]; intros d Hd; simpl; [exact Hd |].
  apply IH. intros k v H. apply dict_In_set in H as [[_ ->] | H]; eauto.
Qed.

(** The columns gathered from the keys of one row, then from a list of
    rows. *)
Lemma add_keys_spec (ks cols : list string) (seen : gset string) :
  List.NoDup cols ->
  (forall x, x ∈ seen <-> In x cols) ->
  let acc :=
    fold_left
      (fun (acc : list string * gset string) col =>
         let '(cols, seen) := acc in
         if decide (col ∈ seen) then acc
         else ((cols ++ [col])%list, {[ col ]} ∪ seen))
      ks (cols, seen) in
  List.NoDup (fst acc)
  /\ (forall x, x ∈ snd acc <-> In x (fst acc))
  /\ (forall x, In x (fst acc) <-> In x cols \/ In x ks).
Proof.
  revert cols seen; induction ks as [|k ks IHk]; intros cols seen Hnd Hseen; cbv zeta.
  - simpl. split; [exact Hnd |]. split; [exact Hseen |]. intros x. tauto.
  - cbn [fold_left]. destruct (decide (k ∈ seen)) as [Hin | Hout].
    + destruct (IHk cols seen Hnd Hseen) as (H1 & H2 & H3).
      split; [exact H1 |]. split; [exact H2 |].
      intros x. rewrite H3. apply Hseen in Hin. simpl.
      split; [tauto |]. intros [H | [<- | H]]; auto.
    + destruct (IHk (cols ++ [k])%list ({[ k ]} ∪ seen)) as (H1 & H2 & H3).
      * apply List.NoDup_app; [exact Hnd | constructor; [intros [] | constructor] |].
        intros x Hx [<- | []]. apply Hout, Hseen, Hx.
      * intros x. rewrite elem_of_union, elem_of_singleton, in_app_iff, Hseen.
        simpl. split; [intros [-> | H] | intros [H | [-> | []]]]; auto.
      * split; [exact H1 |]. split; [exact H2 |].
        intros x. rewrite H3, in_app_iff. simpl. tauto.
Qed.

Lemma add_columns_spec (rows : list (Dict.t string))
    (cols : list string) (seen : gset string) :
  List.NoDup cols ->
  (forall x, x ∈ seen <-> In x cols) ->
  let acc := fold_left add_columns rows (cols, seen) in
  List.NoDup (fst acc)
  /\ (forall x, x ∈ snd acc <-> In x (fst acc))
  /\ (forall x, In x (fst acc)
                <-> In x cols \/ exists row, In row rows /\ In x (Dict.keys row)).
Proof.
  cbv zeta. revert cols seen; induction rows as [|row rows IH];
    intros cols seen Hnd Hseen.
  - simpl. split; [exact Hnd |]. split; [exact Hseen |].
    intros x. split; [auto | intros [H | (r & [] & _)]; exact H].
  - cbn [fold_left].
    pose proof (add_keys_spec (Dict.keys row) cols seen Hnd Hseen) as Hk.
    cbv zeta in Hk. fold (add_columns (cols, seen) row) in Hk.
    destruct Hk as (H1 & H2 & H3).
    destruct (add_columns (cols, seen) row) as [cols1 seen1].
    cbn [fst snd] in H1, H2, H3.
    destruct (IH cols1 seen1 H1 H2) as (H4 & H5 & H6).
    split; [exact H4 |]. split; [exact H5 |].
    intros x. rewrite H6, H3. split.
    + intros [[H | H] | (r & Hr & H)].
      * left. exact H.
      * right. exists row. split; [left; reflexivity | exact H].
      * right. exists r. split; [right; exact Hr | exact H].
    + intros [H | (r & [<- | Hr] & H)].
      * left. left. exact H.
      * left. right. exact H.
      * right. exists r. split; assumption.
Qed.

Lemma tagged_nonempty (root : Element) (t : string) :
  tagged root t <> [] <-> exists el, In el (descendants root) /\ tag el = t.
Proof.
  unfold tagged. split.
  - destruct (List.filter _ (descendants root)) as [|x r] eqn:E; [congruence |].
    intros _. assert (In x (x :: r)) as Hx by (left; reflexivity).
    rewrite <- E in Hx. apply filter_In in Hx as [Hx Ht].
    exists x. split; [exact Hx | apply String.eqb_eq, Ht].
  - intros (el & Hel & Ht) Hnil.
    assert (In el (List.filter (fun e => String.eqb (tag e) t) (descendants root)))
      as Hin by (apply filter_In; split; [exact Hel | apply String.eqb_eq, Ht]).
    rewrite Hnil in Hin. destruct Hin.
Qed.

Lemma tag_sheet_rectangular (direct : Dict.t (list Element)) (t : string)
    (els : list Element) :
  rectangular (tag_sheet direct t els).
Proof.
  unfold rectangular, tag_sheet. cbn [sheet_rows sheet_columns].
  apply List.Forall_forall. intros r Hr.
  apply in_map_iff in Hr as (row & <- & _). apply length_map.
Qed.

(** X14: every tag that occurs below the root has its own sheet: one row
    per element of that tag, in document order; the columns are the
    columns of those elements' flattened rows, each once; and every cell
    is the element's value for the column, or the empty string where the
    element has no such column. *)
Theorem tag_sheet_complete (root : Element) (t : string) :
  tagged root t <> [] ->
  exists sh,
    Dict.get t (snd (parse_xml root)) = Some sh
    /\ sheet_count sh = Some (List.length (tagged root t))
    /\ (sheet_is_direct sh = Some true
        <-> exists c, In c (children root) /\ tag c = t)
    /\ List.NoDup (sheet_columns sh)
    /\ (forall col, In col (sheet_columns sh)
                    <-> exists el, In el (tagged root t)
                                   /\ Dict.get col (flatten_element el "") <> None)
    /\ sheet_rows sh
       = map (fun el =>
                map (fun col =>
                       CStr (match Dict.get col (flatten_element el "") with
                             | Some v => v
                             | None => ""
                             end))
                  (sheet_columns sh))
           (tagged root t).
Proof.
  intros Ht. apply tagged_nonempty in Ht.
  destruct (by_tag_spec (descendants root) t) as (Hentries & Hkeys & _ & _).
  destruct (by_tag_spec (children root) t) as (_ & _ & Hdirect & _).
  fold (tagged root t) in Hentries.
  eexists. unfold parse_xml. cbn [snd].
  split.
  { apply (dict_fold_set_get
             (fun t => tag_sheet (by_tag (children root)) t
                         (entries_of t (by_tag (descendants root))))).
    apply sorted_keys_spec, Hkeys, Ht. }
  rewrite Hentries. unfold tag_sheet. cbn [sheet_count sheet_is_direct
    sheet_columns sheet_rows].
  destruct (add_columns_spec (map (fun el => flatten_element el "") (tagged root t))
              [] ∅) as (Hnd & _ & Hcols);
    [constructor | intros x; split; [set_solver | intros []] |].
  split; [reflexivity |]. split.
  { rewrite <- Hdirect. split; [intros [= ->]; reflexivity | intros ->; reflexivity]. }
  split; [exact Hnd |]. split.
  { intros col. rewrite Hcols. split.
    - intros [[] | (row & Hrow & Hcol)].
      apply in_map_iff in Hrow as (el & <- & Hel).
      exists el. split; [exact Hel | apply dict_get_keys, Hcol].
    - intros (el & Hel & Hcol). right. exists (flatten_element el "").
      split; [| apply dict_get_keys, Hcol].
      apply in_map_iff. exists el. split; [reflexivity | exact Hel]. }
  rewrite map_map. reflexivity.
Qed.

Lemma tag_sheet_complete_witness :
  exists sh,
    Dict.get "ne_list" (snd (parse_xml scenario3_doc)) = Some sh
    /\ sheet_count sh = Some 3%nat
    /\ List.NoDup (sheet_columns sh).
Proof.
  destruct (tag_sheet_complete scenario3_doc "ne_list")
    as (sh & Hget & Hcount & _ & Hnd & _).
  - vm_compute. discriminate.
  - exists sh. split; [exact Hget |]. split; [exact Hcount | exact Hnd].
Defined.

(** X15: the summary lists the tags that occur below the root, each once,
    in increasing order; an entry's count is the number of elements of
    that tag below the root, at least one, and it is marked direct exactly
    when a child of the root has the tag. *)
Theorem summary_entries (root : Element) :
  let summary := snd (fst (parse_xml root)) in
  Sorted String.le (map sum_tag summary)
  /\ List.NoDup (map sum_tag summary)
  /\ (forall t, In t (map sum_tag summary)
                <-> exists el, In el (descendants root) /\ tag el = t)
  /\ forall e, In e summary ->
       sum_count e = List.length (tagged root (sum_tag e))
       /\ (1 <= sum_count e)%nat
       /\ (sum_is_direct e = true
           <-> exists c, In c (children root) /\ tag c = sum_tag e).
Proof.
  cbv zeta. unfold parse_xml. cbn [fst snd]. unfold summary_of.
  rewrite map_map. cbn [sum_tag]. rewrite map_id.
  destruct (sorted_keys_spec (by_tag (descendants root))) as (Hsorted & Hnd & Hin).
  split; [exact Hsorted |].
  split; [apply Hnd, (by_tag_spec (descendants root) "") |].
  split.
  { intros t. rewrite Hin. apply (by_tag_spec (descendants root) t). }
  intros e He. apply in_map_iff in He as (t & <- & Ht). cbn [sum_tag sum_count
    sum_is_direct].
  destruct (by_tag_spec (descendants root) t) as (Hentries & Hkeys & _ & _).
  fold (tagged root t) in Hentries. rewrite Hentries.
  split; [reflexivity |]. split.
  - apply Hin, Hkeys, tagged_nonempty in Ht.
    destruct (tagged root t); [congruence | simpl; lia].
  - apply (by_tag_spec (children root) t).
Qed.

(** X16: every sheet of a tabulation is rectangular: each of its rows has
    as many cells as the sheet has columns. *)
Theorem sheets_rectangular (root : Element) (name : string) (sh : Sheet) :
  In (name, sh) (snd (parse_xml root)) -> rectangular sh.
Proof.
  unfold parse_xml. cbn [snd].
  apply (dict_fold_set_all rectangular
           (fun t => tag_sheet (by_tag (children root)) t
                       (entries_of t (by_tag (descendants root))))).
  - intros t. apply tag_sheet_rectangular.
  - intros k v H. apply dict_In_set in H as [[_ ->] | H].
    + unfold rectangular. cbn [sheet_rows sheet_columns].
      apply List.Forall_forall. intros r Hr.
      apply in_map_iff in Hr as (s & <- & _). reflexivity.
    + apply dict_In_set in H as [[_ ->] | []].
      unfold rectangular. cbn [sheet_rows sheet_columns].
      constructor; [reflexivity |].
      apply List.Forall_forall. intros r Hr.
      apply in_map_iff in Hr as (kv & <- & _). reflexivity.
Qed.

Lemma sheets_rectangular_witness :
  rectangular
    (mkSheet ["ref"] [[CStr "WebSrv"]; [CStr "DNS (TCP)"]; [CStr "GhostObj"]]
       (Some false) (Some 3%nat)).
Proof.
  apply (sheets_rectangular scenario3_doc "ne_list").
  vm_compute. do 5 right. left. reflexivity.
Defined.

Lemma summary_entries_witness :
  sum_count (mkSummary "ne_list" false 3) = List.length (tagged scenario3_doc "ne_list").
Proof.
  destruct (summary_entries scenario3_doc) as (_ & _ & _ & Hentry).
  apply (Hentry (mkSummary "ne_list" false 3)).
  vm_compute. do 3 right. left. reflexivity.
Defined.

(** ** Push loop: refusals, failures of the listing, and counts *)

(** X17: a push is refused with status 400 and sends nothing when no
    client is connected or the category is unknown; and when fetching the
    existing names raises, in transport or while decoding a 200 response,
    the push answers 500 with the exception's text: only the listing
    request was sent and no item was processed. *)
Theorem push_refused (fg : FGClient) (obj_type : string) (items : list RawItem)
    (log : list Request) :
  fg_push None obj_type items log
  = (ErrorResponse "Not connected to FortiGate" 400, log)
  /\ (Dict.get obj_type EP = None ->
      fg_push (Some fg) obj_type items log
      = (ErrorResponse ("Unknown obj_type: " ++ obj_type) 400, log))
  /\ (forall ep e, Dict.get obj_type EP = Some ep ->
        send fg log (GET ep) = inr e ->
        fg_push (Some fg) obj_type items log
        = (ErrorResponse e 500, (log ++ [GET ep])%list))
  /\ (forall ep r e, Dict.get obj_type EP = Some ep ->
        send fg log (GET ep) = inl r ->
        status_code r = 200%Z -> resp_names r = inr e ->
        fg_push (Some fg) obj_type items log
        = (ErrorResponse e 500, (log ++ [GET ep])%list)).
Proof.
  split; [reflexivity |]. split; [intros H; unfold fg_push; rewrite H; reflexivity |].
  split.
  - intros ep e Hep Hsend. unfold fg_push.
    rewrite Hep, (EP_nonempty _ _ Hep).
    unfold bind, get_existing, bind, http. rewrite Hsend. reflexivity.
  - intros ep r e Hep Hsend Hcode Hnames. unfold fg_push.
    rewrite Hep, (EP_nonempty _ _ Hep).
    unfold bind, get_existing, bind, http. rewrite Hsend, Hcode, Hnames. reflexivity.
Qed.

Lemma push_refused_witness :
  fg_push (Some accepting_client) "zones"
    [ItemObject (host_item "a" "10.0.0.1 255.255.255.255")] []
  = (ErrorResponse "Unknown obj_type: zones" 400, []).
Proof.
  destruct (push_refused accepting_client "zones"
              [ItemObject (host_item "a" "10.0.0.1 255.255.255.255")] [])
    as (_ & H & _).
  apply H. reflexivity.
Defined.

(** X18: once the existing names are fetched, a push whose items are all
    objects of the shape of an extracted record ([Item]) does not abort:
    it answers with a results list that has at least one entry per item,
    whatever the remote end replies to the upserts, and after the listing
    it sends at most one request per item; outside the two group
    categories the results list has exactly one entry per item.  When
    such items are followed by an item that is no object, or whose name
    is no string, the push aborts there: the answer is an error with
    status 500 and no results, although the requests for the items before
    it have been sent, and the items after it are not processed. *)
Theorem push_never_aborts (fg : FGClient) (obj_type ep : string)
    (items : list Item) (log log1 : list Request) (existing : gset string) :
  Dict.get obj_type EP = Some ep ->
  get_existing fg ep log = (inl existing, log1) ->
  (exists results reqs,
      fg_push (Some fg) obj_type (map ItemObject items) log
      = (ResultsResponse results, (log ++ GET ep :: reqs)%list)
      /\ (List.length items <= List.length results)%nat
      /\ (List.length reqs <= List.length items)%nat
      /\ (obj_type <> "net_groups" -> obj_type <> "service_groups" ->
          List.length results = List.length items))
  /\ (forall (type_name : string) (rest : list RawItem),
        fg_push (Some fg) obj_type
          (map ItemObject items ++ ItemBadName type_name :: rest)%list log
        = (ErrorResponse (no_attribute type_name "strip") 500,
           snd (fg_push (Some fg) obj_type (map ItemObject items) log)))
  /\ (forall (type_name : string) (rest : list RawItem),
        fg_push (Some fg) obj_type
          (map ItemObject items ++ ItemNotObject type_name :: rest)%list log
        = (ErrorResponse (no_attribute type_name "get") 500,
           snd (fg_push (Some fg) obj_type (map ItemObject items) log))).
Proof.
  intros Hep Hget. pose proof (get_existing_log fg ep log) as Hlog.
  rewrite Hget in Hlog. cbn [snd] in Hlog. subst log1.
  destruct (push_items_counts fg ep obj_type items [] existing (log ++ [GET ep])%list)
    as (new & reqs & ex & Hrun & Hn & Hr & He).
  split; [| split].
  - exists new, reqs. unfold fg_push. rewrite Hep, (EP_nonempty _ _ Hep).
    unfold bind. rewrite Hget, Hrun. cbn [app]. rewrite <- app_assoc.
    split; [reflexivity |]. auto.
  - intros ty rest. unfold fg_push. rewrite Hep, (EP_nonempty _ _ Hep).
    unfold bind. rewrite Hget, push_items_app, Hrun. reflexivity.
  - intros ty rest. unfold fg_push. rewrite Hep, (EP_nonempty _ _ Hep).
    unfold bind. rewrite Hget, push_items_app, Hrun. reflexivity.
Qed.

Lemma push_never_aborts_witness :
  (exists results reqs,
      fg_push (Some accepting_client) "hosts"
        (map ItemObject [host_item "a" "10.0.0.1 255.255.255.255"; host_item "" ""]) []
      = (ResultsResponse results, ([] ++ GET "firewall/address" :: reqs)%list)
      /\ List.length results = 2%nat)
  /\ fg_push (Some accepting_client) "hosts"
        (map ItemObject [host_item "a" "10.0.0.1 255.255.255.255"; host_item "" ""]
         ++ ItemBadName "NoneType"
            :: [ItemObject (host_item "c" "10.0.0.3 255.255.255.255")])%list []
      = (ErrorResponse "'NoneType' object has no attribute 'strip'" 500,
         [ GET "firewall/address";
           POST "firewall/address"
             [("name", JStr "a"); ("comment", JStr ""); ("type", JStr "ipmask");
              ("subnet", JStr "10.0.0.1 255.255.255.255")] ]).
Proof.
  destruct (push_never_aborts accepting_client "hosts" "firewall/address"
              [host_item "a" "10.0.0.1 255.255.255.255"; host_item "" ""]
              [] [GET "firewall/address"] ∅ eq_refl eq_refl)
    as ((results & reqs & Hrun & _ & _ & Hexact) & Habort & _).
  split.
  - exists results, reqs. split; [exact Hrun |].
    apply Hexact; discriminate.
  - rewrite (Habort "NoneType"
               [ItemObject (host_item "c" "10.0.0.3 255.255.255.255")]).
    vm_compute. reflexivity.
Defined.



(** ** Connection handlers *)

(** X20: a connect changes the connection exactly when its probe gets
    status 200 and a body that decodes: then the new client is installed,
    even if the handler goes on to answer with an error because the
    [results] entry has no [.get]; otherwise the handler answers with an
    error and the connection is left as it was, so a client connected
    before stays in use. *)
Theorem connect_outcome (fg : option FGClient) (probe : Probe) :
  (accepted probe = false ->
   fst (fg_connect fg probe) = fg
   /\ exists msg, snd (fg_connect fg probe) = ConnectError msg 400)
  /\ (forall client code text body,
        probe = ProbeReply client code text (inl body) -> code = 200%Z ->
        fst (fg_connect fg probe) = Some client
        /\ (forall e, body = BodyDict (Some (ResultsOther e)) ->
              snd (fg_connect fg probe) = ConnectError e 400)
        /\ ((forall e, body <> BodyDict (Some (ResultsOther e))) ->
              exists version, snd (fg_connect fg probe) = ConnectOk version)).
Proof.
  split.
  - destruct probe as [e | e | client code text [body | e]]; simpl.
    + intros _. eauto.
    + intros _. eauto.
    + intros Hcode. rewrite Hcode. simpl. eauto.
    + intros _. destruct (code =? 200)%Z; simpl; eauto.
  - intros client code text body -> ->. simpl.
    destruct body as [[[upper lower | e] |] |]; simpl.
    + split; [reflexivity |]. split; [discriminate | eauto].
    + split; [reflexivity |]. split; [intros e' [= ->]; reflexivity |].
      intros H. destruct (H e eq_refl).
    + split; [reflexivity |]. split; [discriminate | eauto].
    + split; [reflexivity |]. split; [discriminate | eauto].
Qed.

Lemma connect_outcome_witness :
  fst (fg_connect (Some accepting_client) (ProbeReply accepting_client 401 "no" (inr "x")))
  = Some accepting_client.
Proof.
  destruct (connect_outcome (Some accepting_client)
              (ProbeReply accepting_client 401 "no" (inr "x"))) as [H _].
  apply H. reflexivity.
Defined.

Lemma connect_rejected (fg : option FGClient) (probe : Probe) :
  accepted probe = false -> fst (fg_connect fg probe) = fg.
Proof.
  destruct probe as [e | e | client code text [body | e]]; simpl.
  - reflexivity.
  - reflexivity.
  - intros ->. reflexivity.
  - intros _. destruct (code =? 200)%Z; reflexivity.
Qed.

Lemma probes_are_status (ops : list Op) : Forall (fun rq => rq = STATUS) (probes_of ops).
Proof.
  unfold probes_of. induction ops as [|op ops IH]; [constructor |].
  cbn [flat_map]. apply Forall_app. split; [| exact IH].
  destruct op as [[e | e | client code text json] | | obj_type items]; simpl;
    repeat constructor.
Qed.

Lemma app_run_unconnected (ops : list Op) (log : list Request) :
  forallb (fun op => negb (is_accepted_connect op)) ops = true ->
  app_run ops (None, log) = (None, (log ++ probes_of ops)%list).
Proof.
  unfold app_run. revert log. induction ops as [|op ops IH]; intros log.
  { intros _. simpl. rewrite app_nil_r. reflexivity. }
  simpl. intros [Hop Hops]%andb_prop. apply negb_true_iff in Hop.
  destruct op as [probe | | obj_type items]; cbn [app_step].
  - rewrite (connect_rejected None probe Hop), (IH _ Hops), <- app_assoc.
    reflexivity.
  - apply IH, Hops.
  - apply IH, Hops.
Qed.

(** X21: once a disconnect is handled, until a connect is accepted the
    connection stays empty and the pushes send nothing: whatever came
    before, the only requests that reach a remote end are the status
    probes of the connect attempts, one for each attempt that gets as far
    as sending. *)
Theorem only_probes_after_disconnect (before after : list Op) (st : AppState) :
  forallb (fun op => negb (is_accepted_connect op)) after = true ->
  app_run (before ++ OpDisconnect :: after)%list st
  = (None, (snd (app_run before st) ++ probes_of after)%list)
  /\ Forall (fun rq => rq = STATUS) (probes_of after).
Proof.
  intros Hafter. split; [| apply probes_are_status].
  unfold app_run. rewrite fold_left_app. cbn [fold_left].
  fold (app_run before st). destruct (app_run before st) as [fg log].
  cbn [app_step fg_disconnect snd]. apply app_run_unconnected, Hafter.
Qed.

Lemma only_probes_after_disconnect_witness :
  app_run
    ([OpConnect (ProbeReply accepting_client 200 "" (inl BodyOther));
      OpPush "hosts" [ItemObject (host_item "a" "10.0.0.1 255.255.255.255")]]
     ++ OpDisconnect
        :: [OpConnect (ProbeRaises "refused");
            OpPush "hosts" [ItemObject (host_item "b" "10.0.0.2 255.255.255.255")];
            OpConnect (ProbeReply accepting_client 401 "no" (inr "x"))])%list
    (None, [])
  = (None,
     [ STATUS;
       GET "firewall/address";
       POST "firewall/address"
         [("name", JStr "a"); ("comment", JStr ""); ("type", JStr "ipmask");
          ("subnet", JStr "10.0.0.1 255.255.255.255")];
       STATUS ]).
Proof.
  destruct (only_probes_after_disconnect
              [OpConnect (ProbeReply accepting_client 200 "" (inl BodyOther));
               OpPush "hosts" [ItemObject (host_item "a" "10.0.0.1 255.255.255.255")]]
              [OpConnect (ProbeRaises "refused");
               OpPush "hosts" [ItemObject (host_item "b" "10.0.0.2 255.255.255.255")];
               OpConnect (ProbeReply accepting_client 401 "no" (inr "x"))]
              (None, [])) as [Hrun _].
  - reflexivity.
  - rewrite Hrun. vm_compute. reflexivity.
Defined.
